(** * pygraphy: the schema metaclass and the execution entry point

    A shallow embedding of [pygraphy/types/schema.py]: the type registrar
    ([SchemaType.register_fields_type] / [SchemaType.register_types]), the
    root-shape validator ([SchemaType.validate]), schema construction
    ([SchemaType.__new__]) and [Schema.execute].

    Python objects are referred to by identity.  A type object (a class built
    by one of the pygraphy metaclasses, or a [typing] alias such as
    [Optional[X]] or [List[X]]) is a natural number, and an environment maps
    every identity to what the object is.  The membership test
    [ptype in cls.validated_type] compares with [==], which for classes is
    identity and for [typing] aliases equates aliases built from the same
    arguments; one identity therefore stands for one [==]-class. *)

From stdpp Require Import base list strings gmap.

(** ** Results of Python code *)

Inductive exception :=
| ValidationError (why : string)
| KeyError (key : string)
| AttributeError (attr : string)
| IndexError
| TypeError (msg : string)
| Exception (msg : string)       (* any other instance of [Exception] *)
| BaseException (msg : string).  (* raised, but not an [Exception] instance *)

(** [isinstance(e, Exception)], the test made by [except Exception as e]. *)
Definition isinstance_Exception (e : exception) : bool :=
  match e with
  | BaseException _ => false
  | _ => true
  end.

Inductive result (A : Type) :=
| Return (a : A)
| Raise (e : exception).
Arguments Return {A} a.
Arguments Raise {A} e.

(** A computation that recurses is run with a bound on the depth of its call
    stack; [None] means that the bound was too small. *)
Definition fueled (A : Type) : Type := option (result A).

Definition fbind {A B} (m : fueled A) (k : A → fueled B) : fueled B :=
  match m with
  | Some (Return a) => k a
  | Some (Raise e) => Some (Raise e)
  | None => None
  end.

Notation "'let*' x := m 'in' k" := (fbind m (λ x, k))
  (at level 10, x name, m at level 100, k at level 200).

#[global] Instance result_ret : MRet result := @Return.
#[global] Instance result_bind : MBind result := λ A B k m,
  match m with
  | Return a => k a
  | Raise e => Raise e
  end.

(** The truth value of a list: an empty list is false. *)
Definition truth {A} (xs : list A) : bool :=
  match xs with
  | [] => false
  | _ :: _ => true
  end.

(** ** Type descriptors *)

Abbreviation tid := nat.

Inductive field :=
| Field (ftype : tid)
| ResolverField (ftype : tid) (params : list (string * tid))
| NotAField.                     (* a value that is no [Field] instance *)

(** What a type object is.  The constructor records which arm of the
    [isinstance] chain of [register_types] the object takes; the chain tests
    [ObjectType] first, then [is_union]/[is_list], then [UnionType],
    [InputType], [InterfaceType] and [EnumType]. *)
Inductive decl :=
| ObjectType (fields : list (string * field))
| TypingUnion (args : list tid)  (* [typing.Union[...]], so also [Optional] *)
| TypingList (args : list tid)   (* [typing.List[...]] *)
| UnionType (members : list tid)
| InputType (fields : list (string * field))
| InterfaceType (fields : list (string * field)) (subclasses : list tid)
| EnumType
| NoneType                       (* [type(None)] *)
| Basic.                         (* [int], [str], ... *)

(** The objects of a program; an identity outside of it is a basic type. *)
Definition type_of (env : list decl) (t : tid) : decl :=
  default Basic (env !! t).

(** [d.values()] of an ordered dict *)
Definition values {K V} (d : list (K * V)) : list V := map snd d.

(** ** The registrar *)

Record registry := {
  validated_type : list tid;
  registered_type : list tid
}.

Definition validated_append (t : tid) (st : registry) : registry :=
  {| validated_type := validated_type st ++ [t];
     registered_type := registered_type st |}.

Definition registered_append (t : tid) (st : registry) : registry :=
  {| validated_type := validated_type st;
     registered_type := registered_type st ++ [t] |}.

(** The list [param_return_types] that the loop of [register_fields_type]
    builds; [field.ftype] fails on a value that is no field. *)
Fixpoint param_return_types (fields : list field) : result (list tid) :=
  match fields with
  | [] => Return []
  | f :: rest =>
      match f with
      | NotAField => Raise (AttributeError "ftype")
      | Field ftype =>
          match param_return_types rest with
          | Return ts => Return (ftype :: ts)
          | Raise e => Raise e
          end
      | ResolverField ftype params =>
          match param_return_types rest with
          | Return ts => Return (ftype :: values params ++ ts)
          | Raise e => Raise e
          end
      end
  end.

(** [register_fields_type], with the method it calls as a parameter. *)
Definition register_fields_type_with
    (register_types : list tid → registry → fueled registry)
    (fields : list field) (st : registry) : fueled registry :=
  match param_return_types fields with
  | Return ts => register_types ts st
  | Raise e => Some (Raise e)
  end.

(** One iteration of the loop of [register_types]. *)
Definition visit (env : list decl)
    (register_types : list tid → registry → fueled registry)
    (ptype : tid) (st : registry) : fueled registry :=
  if decide (ptype ∈ validated_type st) then Some (Return st)
  else
    let st := validated_append ptype st in
    let register_fields_type := register_fields_type_with register_types in
    match type_of env ptype with
    | ObjectType fields =>
        register_fields_type (values fields) (registered_append ptype st)
    | TypingUnion args | TypingList args =>
        register_types args st
    | UnionType members =>
        register_types members (registered_append ptype st)
    | InputType fields =>
        register_fields_type (values fields) (registered_append ptype st)
    | InterfaceType fields subclasses =>
        let* st := register_fields_type (values fields)
                     (registered_append ptype st) in
        register_types subclasses st
    | EnumType => Some (Return (registered_append ptype st))
    | NoneType | Basic => Some (Return st)
    end.

(** [for x in xs: body], threading the state *)
Fixpoint for_each {A S} (body : A → S → fueled S) (xs : list A) (st : S)
    : fueled S :=
  match xs with
  | [] => Some (Return st)
  | x :: rest => let* st := body x st in for_each body rest st
  end.

Fixpoint register_types (env : list decl) (fuel : nat)
    : list tid → registry → fueled registry :=
  match fuel with
  | 0 => λ _ _, None
  | S fuel => for_each (visit env (register_types env fuel))
  end.

Definition register_fields_type (env : list decl) (fuel : nat)
    : list field → registry → fueled registry :=
  register_fields_type_with (register_types env fuel).

(** ** The validator *)

(** Modelled from the spec: [is_union], [is_list] and [is_optional] live in
    [pygraphy.utils], which is not among the sources.  A union wrapper holds
    N type arguments, a list wrapper holds its inner type, and an annotation
    is optional-wrapped when it is the union of one inner type with
    [type(None)], which is what Python's [Optional[T]] builds. *)
Definition is_union (d : decl) : bool :=
  match d with
  | TypingUnion _ => true
  | _ => false
  end.

Definition is_list (d : decl) : bool :=
  match d with
  | TypingList _ => true
  | _ => false
  end.

Definition is_optional (env : list decl) (d : decl) : bool :=
  match d with
  | TypingUnion [_; n] =>
      match type_of env n with
      | NoneType => true
      | _ => false
      end
  | _ => false
  end.

Definition isinstance_ObjectType (d : decl) : bool :=
  match d with
  | ObjectType _ => true
  | _ => false
  end.

(** [field.ftype] *)
Definition ftype (f : field) : result tid :=
  match f with
  | Field t | ResolverField t _ => Return t
  | NotAField => Raise (AttributeError "ftype")
  end.

(** [t.__args__] *)
Definition args (d : decl) : result (list tid) :=
  match d with
  | TypingUnion ts | TypingList ts => Return ts
  | _ => Raise (AttributeError "__args__")
  end.

(** [xs[0]] *)
Definition item0 {A} (xs : list A) : result A :=
  match xs with
  | x :: _ => Return x
  | [] => Raise IndexError
  end.

(** [d[key]] of an ordered dict *)
Fixpoint getitem {V} (d : list (string * V)) (key : string) : result V :=
  match d with
  | [] => Raise (KeyError key)
  | (k, v) :: rest => if decide (k = key) then Return v else getitem rest key
  end.

Definition VALID_ROOT_TYPES : list string := ["query"; "mutation"].

(** The body of the loop of [validate], for one item of [__fields__]. *)
Definition validate_root_field (env : list decl) (name : string) (f : field)
    : result unit :=
  if decide (name ∉ VALID_ROOT_TYPES) then
    Raise (ValidationError
             ("The valid root type must be {'query', 'mutation'}, rather than "
              +:+ name))
  else
    match f with
    | NotAField => Raise (ValidationError "invalid field type")
    | Field t | ResolverField t _ =>
        if negb (is_optional env (type_of env t)) then
          Raise (ValidationError
                   "The return type of root object should be Optional")
        else
          inner ← args (type_of env t) ≫= item0;
          if negb (isinstance_ObjectType (type_of env inner)) then
            Raise (ValidationError "The typt of root object must be an Object")
          else Return ()
    end.

Fixpoint validate_root_fields (env : list decl)
    (fields : list (string * field)) : result unit :=
  match fields with
  | [] => Return ()
  | (name, f) :: rest =>
      validate_root_field env name f;; validate_root_fields env rest
  end.

Section Construction.

(** [ObjectType.validate], the checks inherited from the Object type. *)
Variable ObjectType_validate : list (string * field) → result unit.

Definition validate (env : list decl) (fields : list (string * field))
    : result unit :=
  validate_root_fields env fields;; ObjectType_validate fields.

(** [SchemaType.__new__] on the [__fields__] that [ObjectType.__new__]
    collected: both lists start empty, [validate] runs, and then the
    registrar runs on the root's fields.  The class that is returned shares
    the list [registered_type] with the class the registrar ran on. *)
Definition SchemaType_new (env : list decl) (fuel : nat)
    (fields : list (string * field)) : fueled registry :=
  match validate env fields with
  | Raise e => Some (Raise e)
  | Return _ =>
      register_fields_type env fuel (values fields)
        {| validated_type := []; registered_type := [] |}
  end.

End Construction.

(** ** The execution engine *)

Inductive OperationType := QUERY | MUTATION | SUBSCRIPTION.

#[global] Instance OperationType_eq_dec : EqDecision OperationType.
Proof. solve_decision. Defined.

Definition OperationType_repr (op : OperationType) : string :=
  match op with
  | QUERY => "OperationType.QUERY"
  | MUTATION => "OperationType.MUTATION"
  | SUBSCRIPTION => "OperationType.SUBSCRIPTION"
  end.

Section Execution.

(** The collaborators of [execute] keep their own data abstract: the
    selections of an operation, the request, the variables and the values
    that resolution produces. *)
Context {Selections Request Variables Value : Type}.

Record OperationDefinitionNode := {
  operation : OperationType;
  selection_set : Selections
}.

Inductive definition :=
| Operation (node : OperationDefinitionNode)
| OtherDefinition.             (* a fragment, a type definition, ... *)

(** A value bound to [obj]: an instance of a class, or what [__resolve__]
    returned. *)
Inductive object :=
| Instance (class : tid)
| Resolved (v : Value).

Record Context := {
  schema : list (string * field);   (* [cls], through its [__fields__] *)
  root_ast : list definition;
  request : Request;
  variables : Variables
}.

Record envelope := {
  errors : option (list exception);
  data : object
}.

(** What [execute] does besides returning, in the order it does it. *)
Inductive event :=
| ContextSet (c : Context)                      (* [context.set(...)] *)
| Resolve (obj : object) (sel : Selections)     (* [obj.__resolve__(...)] *)
| PrintExc (e : exception)                      (* [traceback.print_exc()] *)
| ContextReset.                                 (* [context.reset(token)] *)

(** The context variable of the module and the effects so far. *)
Record world := {
  context : option Context;
  trace : list event
}.

Definition emit (ev : event) (w : world) : world :=
  {| context := context w; trace := trace w ++ [ev] |}.

(** [context.set(c)]; the token it returns remembers the old value. *)
Definition context_set (c : Context) (w : world) : option Context * world :=
  (context w, emit (ContextSet c) {| context := Some c; trace := trace w |}).

Definition context_reset (token : option Context) (w : world) : world :=
  emit ContextReset {| context := token; trace := trace w |}.

(** [graphql.language.parse], giving [document.definitions]. *)
Variable parse : string → result (list definition).

(** [await obj.__resolve__(selections, error_collector)] under the bound
    context: what it returns or raises, and the list [error_collector] as
    the call leaves it.  One execution is one task, so the awaited call is a
    call. *)
Variable resolve :
  Context → object → Selections → list exception →
  result Value * list exception.

(** [json.dumps(return_root, cls=GraphQLEncoder)]: the text, or the
    exception of an envelope that the encoder cannot serialize. *)
Variable json_dumps : envelope → result string.

(** [C()], the call of the class [C] without arguments: the object it
    returns, or the exception of the constructor, such as the [TypeError] of
    a dataclass with a field that has no default. *)
Variable construct : tid → result object.

Definition FIELD_MAP : list (OperationType * string) :=
  [(QUERY, "query"); (MUTATION, "mutation")].

(** [FIELD_MAP[op]] *)
Fixpoint FIELD_MAP_getitem (m : list (OperationType * string))
    (op : OperationType) : result string :=
  match m with
  | [] => Raise (KeyError (OperationType_repr op))
  | (k, v) :: rest =>
      if decide (k = op) then Return v else FIELD_MAP_getitem rest op
  end.

(** [cls.__fields__[cls.FIELD_MAP[op]].ftype.__args__[0]()] *)
Definition root_object (env : list decl) (cls : list (string * field))
    (op : OperationType) : result object :=
  name ← FIELD_MAP_getitem FIELD_MAP op;
  f ← getitem cls name;
  t ← ftype f;
  class ← args (type_of env t) ≫= item0;
  construct class.

(** The tail of the loop body, from [context.reset(token)] on; the call of
    [json.dumps] is outside of the [try] statement. *)
Definition finish (token : option Context) (error_collector : list exception)
    (obj : object) (w : world) : result (option (string * bool)) * world :=
  let w := context_reset token w in
  let return_root :=
    {| errors := if truth error_collector then Some error_collector
                 else None;
       data := obj |} in
  let success := if negb (truth error_collector) then true else false in
  match json_dumps return_root with
  | Return serialized => (Return (Some (serialized, success)), w)
  | Raise e => (Raise e, w)
  end.

(** The loop body of [execute] for a query or mutation definition. *)
Definition execute_operation (env : list decl) (cls : list (string * field))
    (definitions : list definition) (node : OperationDefinitionNode)
    (vars : Variables) (req : Request) (w : world)
    : result (option (string * bool)) * world :=
  match root_object env cls (operation node) with
  | Raise e => (Raise e, w)
  | Return obj =>
      let error_collector := [] in
      let c := {| schema := cls; root_ast := definitions;
                  request := req; variables := vars |} in
      let '(token, w) := context_set c w in
      let w := emit (Resolve obj (selection_set node)) w in
      match resolve c obj (selection_set node) error_collector with
      | (Return v, error_collector) =>
          finish token error_collector (Resolved v) w
      | (Raise e, error_collector) =>
          if isinstance_Exception e then
            let w := emit (PrintExc e) w in
            finish token (error_collector ++ [e]) obj w
          else (Raise e, w)
      end
  end.

(** The loop over [document.definitions]; falling off its end returns
    [None]. *)
Fixpoint execute_definitions (env : list decl) (cls : list (string * field))
    (definitions : list definition) (todo : list definition)
    (vars : Variables) (req : Request) (w : world)
    : result (option (string * bool)) * world :=
  match todo with
  | [] => (Return None, w)
  | OtherDefinition :: rest =>
      execute_definitions env cls definitions rest vars req w
  | Operation node :: rest =>
      if decide (operation node ∈ [QUERY; MUTATION]) then
        execute_operation env cls definitions node vars req w
      else execute_definitions env cls definitions rest vars req w
  end.

Definition execute (env : list decl) (cls : list (string * field))
    (query : string) (vars : Variables) (req : Request) (w : world)
    : result (option (string * bool)) * world :=
  match parse query with
  | Raise e => (Raise e, w)
  | Return definitions =>
      execute_definitions env cls definitions definitions vars req w
  end.

(** *** Vocabulary of the specification *)

(** A definition the loop acts on: an operation of kind query or
    mutation. *)
Definition qualifies (d : definition) : bool :=
  match d with
  | Operation node => bool_decide (operation node ∈ [QUERY; MUTATION])
  | OtherDefinition => false
  end.

(** The error list and the value of [obj] once the [try] statement is
    over, from what [__resolve__] did. *)
Definition collected (r : result Value) (error_collector : list exception)
    : list exception :=
  match r with
  | Return _ => error_collector
  | Raise e => error_collector ++ [e]
  end.

Definition produced (r : result Value) (obj : object) : object :=
  match r with
  | Return v => Resolved v
  | Raise _ => obj
  end.

(** What [traceback.print_exc()] adds to the events. *)
Definition printed (r : result Value) : list event :=
  match r with
  | Return _ => []
  | Raise e => [PrintExc e]
  end.

(** The calls of [__resolve__] among some events. *)
Fixpoint resolutions (evs : list event) : list (object * Selections) :=
  match evs with
  | [] => []
  | Resolve obj sel :: rest => (obj, sel) :: resolutions rest
  | _ :: rest => resolutions rest
  end.

End Execution.

Arguments OperationDefinitionNode : clear implicits.
Arguments definition : clear implicits.
Arguments object : clear implicits.
Arguments Context : clear implicits.
Arguments envelope : clear implicits.
Arguments event : clear implicits.
Arguments world : clear implicits.

(** ** Vocabulary of the specification *)

(** The types a field collection leads to: every field's type, and every
    parameter type of a resolver field. *)
Fixpoint field_types (fields : list field) : list tid :=
  match fields with
  | [] => []
  | Field t :: rest => t :: field_types rest
  | ResolverField t params :: rest => t :: values params ++ field_types rest
  | NotAField :: rest => field_types rest
  end.

(** The edges of the type graph: field and parameter types, wrapper
    arguments, union members, interface implementors. *)
Definition children (env : list decl) (t : tid) : list tid :=
  match type_of env t with
  | ObjectType fields | InputType fields => field_types (values fields)
  | TypingUnion ts | TypingList ts => ts
  | UnionType members => members
  | InterfaceType fields subclasses =>
      field_types (values fields) ++ subclasses
  | EnumType | NoneType | Basic => []
  end.

Inductive reachable (env : list decl) (roots : list tid) : tid → Prop :=
| reachable_root t : t ∈ roots → reachable env roots t
| reachable_child t u :
    reachable env roots t → u ∈ children env t → reachable env roots u.

(** The named types: Object, Union, Input, Interface, Enum. *)
Definition is_named (d : decl) : bool :=
  match d with
  | ObjectType _ | UnionType _ | InputType _ | InterfaceType _ _ | EnumType =>
      true
  | TypingUnion _ | TypingList _ | NoneType | Basic => false
  end.

(** The structural wrappers: [typing] unions (so optionals) and lists. *)
Definition is_wrapper (d : decl) : bool := is_union d || is_list d.

(** [w] is a list and/or optional wrapping of [x], at any depth. *)
Inductive wraps (env : list decl) : tid → tid → Prop :=
| wraps_arg w x :
    is_wrapper (type_of env w) → x ∈ children env w → wraps env w x
| wraps_nested w v x :
    is_wrapper (type_of env w) → v ∈ children env w → wraps env v x →
    wraps env w x.

(** The fields a type object declares. *)
Definition fields_of (d : decl) : list field :=
  match d with
  | ObjectType fields | InputType fields | InterfaceType fields _ =>
      values fields
  | _ => []
  end.

(** A field of the schema: one of the root, or one of a type reachable from
    the root's fields. *)
Definition schema_field (env : list decl) (root : list (string * field))
    (f : field) : Prop :=
  f ∈ values root ∨
  ∃ t, reachable env (field_types (values root)) t ∧
       f ∈ fields_of (type_of env t).

(** A root field that passes the four root-shape checks: its name is
    [query] or [mutation], it is a field, its type is optional-wrapped, and
    the unwrapped inner type is an Object type. *)
Definition root_field_ok (env : list decl) (item : string * field) : Prop :=
  (item.1 = "query" ∨ item.1 = "mutation") ∧
  ∃ t inner,
    ftype item.2 = Return t ∧
    is_optional env (type_of env t) ∧
    args (type_of env t) ≫= item0 = Return inner ∧
    isinstance_ObjectType (type_of env inner).

(** The reading of the registrar under which a wrapper stays out of the
    visited list. *)
Definition wrapper_stays_unvisited (env : list decl) (fuel : nat)
    (types : list tid) (st : registry) : Prop :=
  ∀ st' w,
    register_types env fuel types st = Some (Return st') →
    w ∈ types → is_wrapper (type_of env w) →
    w ∉ validated_type st → w ∉ validated_type st'.

Definition occurrences (x : tid) (l : list tid) : nat :=
  length (filter (λ y, y = x) l).

Definition empty_registry : registry :=
  {| validated_type := []; registered_type := [] |}.

(** The declared type objects that the registrar has not visited yet. *)
Definition unvisited (env : list decl) (st : registry) : gset nat :=
  set_seq 0 (length env) ∖ list_to_set (validated_type st).

(** ** Invariants of the registrar *)

Definition named (env : list decl) (t : tid) : Prop :=
  is_named (type_of env t).

(** How a run of the registrar changes the two lists: it appends fresh,
    pairwise distinct types to [validated_type], appends the named ones among
    them, in the same order, to [registered_type], and has visited every
    child of every type it appended. *)
Definition grows (env : list decl) (st st' : registry) : Prop :=
  ∃ new : list tid,
    validated_type st' = validated_type st ++ new ∧
    registered_type st' = registered_type st ++ filter (named env) new ∧
    NoDup new ∧
    (∀ x, x ∈ new → x ∉ validated_type st) ∧
    (∀ x y, x ∈ new → y ∈ children env x → y ∈ validated_type st').

(** What a call of the registrar guarantees when it returns. *)
Definition registers (env : list decl)
    (rec : list tid → registry → fueled registry) : Prop :=
  ∀ ts st st', rec ts st = Some (Return st') →
    grows env st st' ∧ ∀ t, t ∈ ts → t ∈ validated_type st'.

(** A call that completes whenever fewer than [n] declared types are
    unvisited. *)
Definition completes (env : list decl) (n : nat)
    (rec : list tid → registry → fueled registry) : Prop :=
  ∀ ts st, size (unvisited env st) < n → is_Some (rec ts st).

(** [rec'] gives every result that [rec] gives. *)
Definition refines (rec rec' : list tid → registry → fueled registry) : Prop :=
  ∀ ts st r, rec ts st = Some r → rec' ts st = Some r.

(** ** Sample programs *)

Module Sample.

(** A schema whose type graph has a self reference ([User.friend]), a
    mutual reference ([Query.me] / [User.root]), a diamond (the interface
    [Node] and the object [Query] both lead to [User]) and nested wrappers
    ([List[Optional[Color]]]).

    0 [Optional[Query]]   1 [Query]   2 [type(None)]   3 [List[4]]
    4 [Optional[Color]]   5 [Color]   6 [Node]   7 [User]   8 [str]
    9 [SearchResult]   10 [Filter] *)
Definition env : list decl :=
  [ TypingUnion [1; 2];
    ObjectType [("me", Field 7); ("colors", Field 3);
                ("node", ResolverField 6 [("id", 8); ("filter", 10)]);
                ("search", Field 9)];
    NoneType;
    TypingList [4];
    TypingUnion [5; 2];
    EnumType;
    InterfaceType [("id", Field 8)] [7];
    ObjectType [("friend", Field 7); ("root", Field 1);
                ("favourite", Field 4)];
    Basic;
    UnionType [7; 1];
    InputType [("color", Field 4)] ].

Definition root : list (string * field) := [("query", Field 0)].

Definition built : registry :=
  {| validated_type := [0; 1; 7; 4; 5; 2; 3; 6; 8; 10; 9];
     registered_type := [1; 7; 5; 6; 10; 9] |}.

Definition no_ObjectType_validate (fields : list (string * field))
    : result unit := Return ().

(** A schema with one list-typed field of an enum, seen from the
    registrar: 0 [List[1]], 1 an enum. *)
Definition list_env : list decl := [TypingList [1]; EnumType].

(** Collaborators of [execute]: selections are field names, a resolved
    value is a string. *)
Definition query_hello : OperationDefinitionNode (list string) :=
  {| operation := QUERY; selection_set := ["hello"] |}.
Definition query_boom : OperationDefinitionNode (list string) :=
  {| operation := QUERY; selection_set := ["boom"] |}.
Definition mutation_bump : OperationDefinitionNode (list string) :=
  {| operation := MUTATION; selection_set := ["bump"] |}.
Definition subscription_ticks : OperationDefinitionNode (list string) :=
  {| operation := SUBSCRIPTION; selection_set := ["ticks"] |}.

Definition parse (query : string) : result (list (definition (list string))) :=
  if decide (query = "{ hello }") then
    Return [OtherDefinition; Operation subscription_ticks;
            Operation query_hello; Operation query_boom]
  else if decide (query = "{ boom }") then
    Return [Operation query_boom; Operation query_hello]
  else if decide (query = "mutation { bump }") then
    Return [OtherDefinition; Operation mutation_bump; Operation query_hello]
  else if decide (query = "fragment F on Query { hello }") then
    Return [OtherDefinition; Operation subscription_ticks]
  else Raise (Exception "Syntax Error").

Definition resolve (c : Context (list string) unit unit)
    (obj : object string) (sel : list string)
    (error_collector : list exception)
    : result string * list exception :=
  if decide (sel = ["boom"]) then
    (Raise (Exception "boom"),
     error_collector ++ [Exception "hello failed"])
  else (Return "world", error_collector).

Definition json_dumps (e : envelope string) : result string :=
  match errors e, data e with
  | None, Resolved v => Return ("{errors: null, data: " +:+ v +:+ "}")
  | None, Instance _ => Return "{errors: null, data: {}}"
  | Some _, Resolved v => Return ("{errors: [...], data: " +:+ v +:+ "}")
  | Some _, Instance _ => Return "{errors: [...], data: {}}"
  end.

Definition construct (class : tid) : result (object string) :=
  Return (Instance class).

Definition idle : world (list string) unit unit string :=
  {| context := None; trace := [] |}.

End Sample.

(** ** Printing *)

Definition newline : string := String (Ascii.ascii_of_nat 10) "".

Section Printing.

(** [str(rtype)] of a registered type, [cls.print_description()],
    [cls.print_field()] and [patch_indents] of [pygraphy.utils]. *)
Variable str : tid → string.
Variable print_description : string.
Variable print_field : string.
Variable patch_indents : string → nat → string.

(** The loop of [__str__], from a value of [string] on. *)
Fixpoint SchemaType_str_loop (s : string) (registered : list tid)
    : string :=
  match registered with
  | [] => s
  | rtype :: rest =>
      SchemaType_str_loop (s +:+ (str rtype +:+ newline +:+ newline)) rest
  end.

(** [SchemaType.__str__] *)
Definition SchemaType_str (registered : list tid) : string :=
  let s := SchemaType_str_loop "" registered in
  let schema :=
    print_description +:+ "schema " +:+ ("{" +:+ newline)
    +:+ patch_indents print_field 1 +:+ (newline +:+ "}") in
  s +:+ schema.

End Printing.

(** ** Further vocabulary *)

(** A type object one of whose [__fields__] values is no field. *)
Definition ill_fielded (env : list decl) (t : tid) : Prop :=
  NotAField ∈ fields_of (type_of env t).

(** What a call of the registrar on the candidates [ts] comes to: a type it
    appended is reachable from [ts] and has fields only; an exception it
    raised is the [AttributeError] of a non-field of a type reachable from
    [ts]. *)
Definition traces_back (env : list decl) (ts : list tid) (st : registry)
    (r : result registry) : Prop :=
  match r with
  | Return st' =>
      ∀ x, x ∈ validated_type st' →
        x ∈ validated_type st ∨
        (reachable env ts x ∧ ¬ ill_fielded env x)
  | Raise e =>
      e = AttributeError "ftype" ∧
      ∃ x, reachable env ts x ∧ ill_fielded env x
  end.

Definition tracing (env : list decl)
    (rec : list tid → registry → fueled registry) : Prop :=
  ∀ ts st r, rec ts st = Some r → traces_back env ts st r.

(** ** Further sample programs *)

Module Sample2.

(** The sample graph with a [User] class that carries an attribute which is
    no field. *)
Definition broken_env : list decl :=
  <[7 := ObjectType [("friend", Field 7); ("oops", NotAField)]]> Sample.env.

(** A root with a [mutation] only, and one with a field that is not
    optional-wrapped after a good one. *)
Definition mutation_root : list (string * field) := [("mutation", Field 0)].
Definition bad_root : list (string * field) :=
  [("query", Field 0); ("mutation", Field 1); ("extra", Field 0)].

Definition registry_after_list : registry :=
  {| validated_type := [0; 1]; registered_type := [1] |}.

(** Resolution that is interrupted, and resolution that returns a value
    after collecting an error. *)
Definition resolve_interrupted (c : Context (list string) unit unit)
    (obj : object string) (sel : list string)
    (error_collector : list exception)
    : result string * list exception :=
  (Raise (BaseException "KeyboardInterrupt"), error_collector).

Definition resolve_partial (c : Context (list string) unit unit)
    (obj : object string) (sel : list string)
    (error_collector : list exception)
    : result string * list exception :=
  (Return "partial", error_collector ++ [Exception "field failed"]).

(** A root class with a field that has no default, and an encoder that
    cannot serialize an instance. *)
Definition construct_strict (class : tid) : result (object string) :=
  match class with
  | 1 => Raise (TypeError "__init__() missing 1 required positional argument")
  | _ => Return (Instance class)
  end.

Definition json_dumps_strict (e : envelope string) : result string :=
  match data e with
  | Resolved v => Sample.json_dumps e
  | Instance _ => Raise (TypeError "Object is not JSON serializable")
  end.

Definition str (t : tid) : string :=
  match t with
  | 1 => "type Query"
  | 5 => "enum Color"
  | 7 => "type User"
  | _ => "type"
  end.

End Sample2.

(** * Properties *)

(** ** The registrar *)

Section Registrar.
Variable env : list decl.

Lemma grows_refl st : grows env st st.
Proof.
  exists []. rewrite !app_nil_r. split_and!; try done.
  - constructor.
  - by intros x ?%elem_of_nil.
  - by intros x y ?%elem_of_nil.
Qed.

Lemma grows_validated st st' x :
  grows env st st' → x ∈ validated_type st → x ∈ validated_type st'.
Proof. intros (new & -> & _) ?. set_solver. Qed.

Lemma grows_trans st1 st2 st3 :
  grows env st1 st2 → grows env st2 st3 → grows env st1 st3.
Proof.
  intros (n1 & Hv1 & Hr1 & Hd1 & Hf1 & Hc1) (n2 & Hv2 & Hr2 & Hd2 & Hf2 & Hc2).
  exists (n1 ++ n2). split_and!.
  - by rewrite Hv2, Hv1, app_assoc.
  - by rewrite Hr2, Hr1, filter_app, app_assoc.
  - apply NoDup_app. split_and!; [done| |done].
    intros x Hx1 Hx2. apply (Hf2 x Hx2). rewrite Hv1. set_solver.
  - intros x [?|?]%elem_of_app; [by apply Hf1|].
    intros ?. apply (Hf2 x); [done|]. rewrite Hv1. set_solver.
  - intros x y [?|?]%elem_of_app Hy.
    + rewrite Hv2. apply elem_of_app. left. by eapply Hc1.
    + by eapply Hc2.
Qed.

(** The effect of an iteration that visits a new type. *)
Lemma grows_visit p st st' :
  p ∉ validated_type st →
  grows env (if is_named (type_of env p)
             then registered_append p (validated_append p st)
             else validated_append p st) st' →
  (∀ y, y ∈ children env p → y ∈ validated_type st') →
  grows env st st' ∧ p ∈ validated_type st'.
Proof.
  intros Hp (new & Hv & Hr & Hd & Hf & Hc) Hch.
  assert (validated_type st' = validated_type st ++ p :: new) as Hv'.
  { rewrite Hv. destruct (is_named _); simpl; by rewrite <- app_assoc. }
  assert (∀ x, x ∈ new → x ∉ validated_type st ++ [p]) as Hf'.
  { intros x Hx. specialize (Hf x Hx). by destruct (is_named _). }
  clear Hv Hf. split.
  - exists (p :: new). split_and!.
    + done.
    + rewrite Hr, filter_cons. unfold named.
      destruct (is_named (type_of env p)); simpl.
      * by rewrite <- app_assoc.
      * done.
    + constructor; [|done]. intros Hin. apply (Hf' p Hin). set_solver.
    + intros x [->|Hx]%elem_of_cons; [done|].
      intros ?. apply (Hf' x Hx). set_solver.
    + intros x y [->|Hx]%elem_of_cons Hy; [by apply Hch|by eapply Hc].
  - rewrite Hv'. set_solver.
Qed.

Lemma param_return_types_Return fields ts :
  param_return_types fields = Return ts → ts = field_types fields.
Proof.
  revert ts. induction fields as [|[t|t ps|] rest IH]; intros ts; simpl.
  - by intros [= <-].
  - destruct (param_return_types rest); [|done]. intros [= <-].
    by rewrite (IH _ eq_refl).
  - destruct (param_return_types rest); [|done]. intros [= <-].
    by rewrite (IH _ eq_refl).
  - done.
Qed.

Lemma register_fields_type_with_registers rec fields st st' :
  registers env rec →
  register_fields_type_with rec fields st = Some (Return st') →
  grows env st st' ∧ ∀ t, t ∈ field_types fields → t ∈ validated_type st'.
Proof.
  intros Hrec. unfold register_fields_type_with.
  destruct (param_return_types fields) as [ts|] eqn:Hts; [|done].
  apply param_return_types_Return in Hts as ->. apply Hrec.
Qed.

Lemma visit_registers rec p st st' :
  registers env rec →
  visit env rec p st = Some (Return st') →
  grows env st st' ∧ p ∈ validated_type st'.
Proof.
  intros Hrec. unfold visit. case_decide as Hp.
  { intros [= <-]. split; [apply grows_refl|done]. }
  destruct (type_of env p) as [fs|ts|ts|ms|fs|fs subs| | |] eqn:Hd; simpl;
    intros Hrun; apply grows_visit; try done;
    unfold children; rewrite Hd; simpl.
  all: try (apply (register_fields_type_with_registers rec) in Hrun
              as [? ?]; done).
  all: try (apply Hrec in Hrun as [? ?]; done).
  all: try (injection Hrun as <-; first [apply grows_refl | set_solver]).
  - destruct (register_fields_type_with _ _ _) as [[st1|]|] eqn:H1;
      simpl in Hrun; try done.
    apply (register_fields_type_with_registers rec) in H1 as [? ?]; [|done].
    apply Hrec in Hrun as [? ?]. by eapply grows_trans.
  - destruct (register_fields_type_with _ _ _) as [[st1|]|] eqn:H1;
      simpl in Hrun; try done.
    apply (register_fields_type_with_registers rec) in H1 as [? ?]; [|done].
    apply Hrec in Hrun as [Hg ?].
    intros y [?|?]%elem_of_app; [|by auto].
    eapply grows_validated; eauto.
Qed.

Lemma for_each_registers body ts st st' :
  (∀ p s s', body p s = Some (Return s') →
     grows env s s' ∧ p ∈ validated_type s') →
  for_each body ts st = Some (Return st') →
  grows env st st' ∧ ∀ t, t ∈ ts → t ∈ validated_type st'.
Proof.
  intros Hbody. revert st. induction ts as [|p rest IH]; intros st; simpl.
  - intros [= <-]. split; [apply grows_refl|]. by intros t ?%elem_of_nil.
  - destruct (body p st) as [[st1|]|] eqn:H1; simpl; try done.
    intros Hrest. apply Hbody in H1 as [? ?]. apply IH in Hrest as [? ?].
    split; [by eapply grows_trans|].
    intros t [->|?]%elem_of_cons; [|by auto].
    by eapply grows_validated.
Qed.

Lemma register_types_registers fuel : registers env (register_types env fuel).
Proof.
  induction fuel as [|fuel IH]; intros ts st st'; simpl; [done|].
  apply for_each_registers. intros p s s'. by apply visit_registers.
Qed.

Lemma register_fields_type_registers fuel fields st st' :
  register_fields_type env fuel fields st = Some (Return st') →
  grows env st st' ∧ ∀ t, t ∈ field_types fields → t ∈ validated_type st'.
Proof.
  apply register_fields_type_with_registers, register_types_registers.
Qed.

(** Everything reachable from visited types is visited, once the registrar
    has returned to a state that grew out of the empty one. *)
Lemma grows_empty_closed roots st' t :
  grows env empty_registry st' →
  (∀ r, r ∈ roots → r ∈ validated_type st') →
  reachable env roots t → t ∈ validated_type st'.
Proof.
  intros (new & Hv & _ & _ & _ & Hc) Hroots. simpl in *.
  induction 1 as [t Ht|t u _ IH Hu]; [by apply Hroots|].
  eapply Hc; [|done]. by rewrite <- Hv.
Qed.

Lemma grows_empty_registered st' :
  grows env empty_registry st' →
  NoDup (validated_type st') ∧
  registered_type st' = filter (named env) (validated_type st').
Proof. intros (new & -> & -> & ? & _). done. Qed.

Lemma occurrences_absent x (l : list nat) : x ∉ l → occurrences x l = 0.
Proof.
  unfold occurrences. induction l as [|y l IH]; [done|].
  intros [? ?]%not_elem_of_cons.
  rewrite filter_cons_False by (intros ->; done). auto.
Qed.

Lemma occurrences_NoDup x (l : list nat) :
  NoDup l → x ∈ l → occurrences x l = 1.
Proof.
  induction 1 as [|y l Hy Hl IH]; [by intros ?%elem_of_nil|].
  unfold occurrences in *. intros [->|Hx]%elem_of_cons.
  - rewrite filter_cons_True by done. simpl. f_equal.
    by apply occurrences_absent.
  - rewrite filter_cons_False by (intros ->; done). auto.
Qed.

(** *** Termination *)

Lemma unvisited_grows st st' :
  grows env st st' → unvisited env st' ⊆ unvisited env st.
Proof.
  intros (new & Hv & _) x. unfold unvisited.
  rewrite !elem_of_difference, !elem_of_list_to_set, Hv, elem_of_app.
  tauto.
Qed.

Lemma unvisited_registered_append p st :
  unvisited env (registered_append p st) = unvisited env st.
Proof. done. Qed.

Lemma unvisited_validated_append p st :
  p ∉ validated_type st → is_Some (env !! p) →
  size (unvisited env (validated_append p st)) < size (unvisited env st).
Proof.
  intros Hp Hdecl%lookup_lt_is_Some. apply subset_size.
  unfold unvisited; simpl. apply strict_spec_alt. split.
  { intros x.
    rewrite !elem_of_difference, !elem_of_list_to_set, elem_of_app. tauto. }
  intros Heq. assert (p ∈ set_seq (C:=gset nat) 0 (length env)) as Hin.
  { apply elem_of_set_seq. lia. }
  assert (p ∈ set_seq (C:=gset nat) 0 (length env)
              ∖ list_to_set (validated_type st)) as Hp'.
  { apply elem_of_difference. by rewrite elem_of_list_to_set. }
  rewrite <- Heq in Hp'. apply elem_of_difference in Hp' as [_ []].
  apply elem_of_list_to_set, elem_of_app. right. by apply list_elem_of_singleton.
Qed.

Lemma type_of_declared p :
  type_of env p ≠ Basic → is_Some (env !! p).
Proof. unfold type_of. destruct (env !! p); [eauto|done]. Qed.

Lemma register_fields_type_with_completes n rec fields st :
  completes env n rec → size (unvisited env st) < n →
  is_Some (register_fields_type_with rec fields st).
Proof.
  intros Hrec Hst. unfold register_fields_type_with.
  destruct (param_return_types fields); [by apply Hrec|eauto].
Qed.

Lemma visit_completes n rec p st :
  registers env rec → completes env n rec →
  size (unvisited env st) < S n → is_Some (visit env rec p st).
Proof.
  intros Hreg Hrec Hst. unfold visit. case_decide as Hp; [eauto|].
  assert (type_of env p ≠ Basic →
          size (unvisited env (validated_append p st)) < n) as Hlt.
  { intros Hd%type_of_declared.
    pose proof (unvisited_validated_append p st Hp Hd). lia. }
  destruct (type_of env p) as [fs|ts|ts|ms|fs|fs subs| | |] eqn:Hd; simpl;
    eauto; specialize (Hlt ltac:(done));
    try (by apply Hrec);
    try (by apply (register_fields_type_with_completes n)).
  destruct (register_fields_type_with_completes n rec (values fs)
                (registered_append p (validated_append p st)) Hrec Hlt)
      as [[st1|e] H1]; rewrite H1; simpl; [|eauto].
    apply Hrec.
    apply (register_fields_type_with_registers rec) in H1 as [Hg _];
      [|done].
    apply unvisited_grows, subseteq_size in Hg.
    rewrite unvisited_registered_append in Hg. lia.
Qed.

Lemma for_each_completes n body (ts : list nat) st :
  (∀ p s s', body p s = Some (Return s') → grows env s s') →
  (∀ p s, size (unvisited env s) < n → is_Some (body p s)) →
  size (unvisited env st) < n → is_Some (for_each body ts st).
Proof.
  intros Hg Hbody. revert st. induction ts as [|p rest IH]; intros st Hst;
    simpl; [eauto|].
  destruct (Hbody p st Hst) as [[st1|e] H1]; rewrite H1; simpl; [|eauto].
  apply IH. apply Hg, unvisited_grows, subseteq_size in H1. lia.
Qed.

Lemma register_types_completes fuel :
  completes env fuel (register_types env fuel).
Proof.
  induction fuel as [|fuel IH]; intros ts st Hst; [lia|]. simpl.
  apply (for_each_completes (S fuel)); [|intros p s Hs|done].
  - intros p s s' Hv.
    by apply (visit_registers _ _ _ _ (register_types_registers fuel)) in Hv
      as [? _].
  - apply (visit_completes fuel); [apply register_types_registers|done..].
Qed.

Lemma size_unvisited st : size (unvisited env st) ≤ length env.
Proof.
  unfold unvisited.
  etrans; [apply subseteq_size, subseteq_difference_l; reflexivity|].
  by rewrite size_set_seq.
Qed.

(** *** The bound on the depth does not influence the result *)

Lemma register_fields_type_with_refines rec rec' fields st r :
  refines rec rec' →
  register_fields_type_with rec fields st = Some r →
  register_fields_type_with rec' fields st = Some r.
Proof.
  intros Href. unfold register_fields_type_with.
  destruct (param_return_types fields); [apply Href|done].
Qed.

Lemma visit_refines rec rec' p st r :
  refines rec rec' →
  visit env rec p st = Some r → visit env rec' p st = Some r.
Proof.
  intros Href. unfold visit. case_decide; [done|].
  destruct (type_of env p); simpl; try done;
    try apply Href; try (by apply register_fields_type_with_refines).
  destruct (register_fields_type_with rec _ _) as [[st1|e]|] eqn:H1;
    simpl; [| |done];
    rewrite (register_fields_type_with_refines _ _ _ _ _ Href H1); simpl;
    [apply Href|done].
Qed.

Lemma for_each_refines (body body' : nat → registry → fueled registry)
    ts st r :
  (∀ p s r, body p s = Some r → body' p s = Some r) →
  for_each body ts st = Some r → for_each body' ts st = Some r.
Proof.
  intros Href. revert st. induction ts as [|p rest IH]; intros st; simpl;
    [done|].
  destruct (body p st) as [[st1|e]|] eqn:H1; simpl; [| |done];
    rewrite (Href _ _ _ H1); simpl; [apply IH|done].
Qed.

Lemma register_types_fuel_mono fuel k :
  refines (register_types env fuel) (register_types env (fuel + k)).
Proof.
  induction fuel as [|fuel IH]; intros ts st r; simpl; [done|].
  apply for_each_refines. intros p s r'. by apply visit_refines.
Qed.


(** *** Main results on the registrar *)

(** C2: the registrar terminates on every type graph.  A call stack one
    deeper than the number of declared type objects is enough for any list
    of candidate types and any state of the two lists, and a deeper stack
    gives the same result: a candidate is appended to [validated_type]
    before its children are entered and a candidate found there is
    skipped, so every nested call has one unvisited type less. *)
Theorem register_types_terminates k types fields st :
  (∃ r, register_types env (S (length env)) types st = Some r ∧
        register_types env (S (length env) + k) types st = Some r) ∧
  (∃ r, register_fields_type env (S (length env)) fields st = Some r ∧
        register_fields_type env (S (length env) + k) fields st = Some r).
Proof.
  pose proof (size_unvisited st) as Hsize. split.
  - destruct (register_types_completes (S (length env)) types st)
      as [r Hr]; [lia|].
    exists r. split; [done|]. by apply register_types_fuel_mono.
  - destruct (register_fields_type_with_completes (S (length env))
                (register_types env (S (length env))) fields st)
      as [r Hr]; [apply register_types_completes|lia|].
    exists r. split; [done|].
    eapply register_fields_type_with_refines; [|done].
    apply register_types_fuel_mono.
Qed.

(** C8, as amended: a union or list/optional wrapper that the registrar
    meets for the first time is itself appended to [validated_type], like
    every candidate; it is not appended to [registered_type]; and all its
    type arguments are entered, so they end up in [validated_type] too. *)
Theorem wrapper_visited_not_registered fuel types st st' w :
  register_types env fuel types st = Some (Return st') →
  w ∈ types → is_wrapper (type_of env w) → w ∉ validated_type st →
  w ∈ validated_type st' ∧
  (∀ a, a ∈ children env w → a ∈ validated_type st') ∧
  (w ∉ registered_type st → w ∉ registered_type st').
Proof.
  intros [(new & Hv & Hr & _ & _ & Hc) Hts]%register_types_registers
    Hw Hwrap Hfresh.
  pose proof (Hts w Hw) as Hin. split_and!; [done| |].
  - intros a Ha. apply (Hc w); [|done].
    rewrite Hv in Hin. by apply elem_of_app in Hin as [?|?].
  - rewrite Hr. intros Hreg [?|[Hn _]%list_elem_of_filter]%elem_of_app;
      [done|].
    unfold named in Hn. by destruct (type_of env w).
Qed.

End Registrar.

(** The registrar run by schema construction starts from two empty lists. *)
Lemma SchemaType_new_Return OV env fuel root st :
  SchemaType_new OV env fuel root = Some (Return st) →
  validate OV env root = Return () ∧
  grows env empty_registry st ∧
  ∀ t, reachable env (field_types (values root)) t → t ∈ validated_type st.
Proof.
  unfold SchemaType_new. destruct (validate OV env root) as [[]|]; [|done].
  intros [Hg Hroots]%register_fields_type_registers. split_and!; [done..|].
  intros t. by apply grows_empty_closed.
Qed.

(** Schema construction always comes to an end with a stack one deeper than
    the number of declared type objects. *)
Lemma SchemaType_new_completes OV env root :
  is_Some (SchemaType_new OV env (S (length env)) root).
Proof.
  unfold SchemaType_new. destruct (validate OV env root); [|eauto].
  apply (register_fields_type_with_completes env (S (length env)));
    [apply register_types_completes|].
  pose proof (size_unvisited env empty_registry). unfold empty_registry in *.
  lia.
Qed.

Lemma wraps_reachable env roots w x :
  reachable env roots w → wraps env w x → reachable env roots x.
Proof.
  intros Hw Hwx. induction Hwx as [w x _ Hx|w v x _ Hv _ IH].
  - by eapply reachable_child.
  - apply IH. by eapply reachable_child.
Qed.

Lemma ftype_field_types f t fields :
  f ∈ fields → ftype f = Return t → t ∈ field_types fields.
Proof.
  intros Hf Ht. induction fields as [|g fields IH].
  { by apply elem_of_nil in Hf. }
  apply elem_of_cons in Hf as [<-|Hf].
  - destruct f; simplify_eq/=; apply elem_of_cons; by left.
  - specialize (IH Hf).
    destruct g; simpl; rewrite ?elem_of_cons, ?elem_of_app; auto.
Qed.

Lemma schema_field_reachable env root f t :
  schema_field env root f → ftype f = Return t →
  reachable env (field_types (values root)) t.
Proof.
  intros [Hf|(u & Hu & Hf)] Ht.
  - apply reachable_root. by eapply ftype_field_types.
  - apply (reachable_child _ _ u); [done|].
    pose proof (ftype_field_types _ _ _ Hf Ht) as Hin.
    unfold children, fields_of in *.
    destruct (type_of env u); simpl in *;
      try (by apply elem_of_nil in Hf); try done.
    apply elem_of_app. by left.
Qed.

(** C1: after schema construction every named type reachable from the root's
    fields occurs exactly once in [registered_type], and the list has no
    duplicates at all, whatever the shape of the type graph. *)
Theorem registered_type_exactly_once OV env fuel root st :
  SchemaType_new OV env fuel root = Some (Return st) →
  NoDup (registered_type st) ∧
  ∀ t, reachable env (field_types (values root)) t →
       is_named (type_of env t) →
       occurrences t (registered_type st) = 1.
Proof.
  intros (_ & Hg & Hreach)%SchemaType_new_Return.
  apply grows_empty_registered in Hg as [Hnodup Hreg].
  assert (NoDup (registered_type st)) as Hnd.
  { rewrite Hreg. by apply NoDup_filter. }
  split; [done|]. intros t Ht Hnamed.
  apply occurrences_NoDup; [done|].
  rewrite Hreg. apply list_elem_of_filter. split; [done|by apply Hreach].
Qed.

(** C6: wrappers are transparent for registration.  For a field of the schema
    whose declared type [w] is a list and/or optional wrapping of a named
    type [x], [x] occurs exactly once in [registered_type], and no list or
    union wrapper occurs in [registered_type]. *)
Theorem wrappers_are_transparent OV env fuel root st f w x :
  SchemaType_new OV env fuel root = Some (Return st) →
  schema_field env root f → ftype f = Return w →
  wraps env w x → is_named (type_of env x) →
  occurrences x (registered_type st) = 1 ∧
  ∀ v, is_wrapper (type_of env v) → occurrences v (registered_type st) = 0.
Proof.
  intros (_ & Hg & Hreach)%SchemaType_new_Return Hf Hw Hwx Hnamed.
  apply grows_empty_registered in Hg as [Hnodup Hreg]. split.
  - apply occurrences_NoDup; [rewrite Hreg; by apply NoDup_filter|].
    rewrite Hreg. apply list_elem_of_filter. split; [done|].
    apply Hreach. eapply wraps_reachable; [|done].
    by eapply schema_field_reachable.
  - intros v Hv. apply occurrences_absent. rewrite Hreg.
    intros [Hn _]%list_elem_of_filter. unfold named in Hn.
    by destruct (type_of env v).
Qed.

Lemma registered_type_exactly_once_sample :
  NoDup (registered_type Sample.built) ∧
  ∀ t, reachable Sample.env (field_types (values Sample.root)) t →
       is_named (type_of Sample.env t) →
       occurrences t (registered_type Sample.built) = 1.
Proof.
  apply (registered_type_exactly_once Sample.no_ObjectType_validate
           Sample.env 5 Sample.root).
  reflexivity.
Defined.

Lemma wrappers_are_transparent_sample :
  occurrences 5 (registered_type Sample.built) = 1 ∧
  ∀ v, is_wrapper (type_of Sample.env v) →
       occurrences v (registered_type Sample.built) = 0.
Proof.
  apply (wrappers_are_transparent Sample.no_ObjectType_validate
           Sample.env 5 Sample.root Sample.built (Field 3) 3 5).
  - reflexivity.
  - right. exists 1. split.
    + apply (reachable_child _ _ 0); [apply reachable_root|];
        vm_compute; repeat constructor.
    + vm_compute. repeat constructor.
  - reflexivity.
  - apply (wraps_nested _ 3 4 5); [exact I|vm_compute; repeat constructor|].
    apply wraps_arg; [exact I|vm_compute; repeat constructor].
  - exact I.
Defined.

(** C8, as stated, fails: the list wrapper of a field typed [List[Color]] is
    in [validated_type] once the registrar has run. *)
Lemma wrapper_stays_unvisited_fails :
  ¬ wrapper_stays_unvisited Sample.list_env 2 [0] empty_registry.
Proof.
  intros H.
  apply (H {| validated_type := [0; 1]; registered_type := [1] |} 0).
  - reflexivity.
  - repeat constructor.
  - exact I.
  - by intros ?%elem_of_nil.
  - repeat constructor.
Qed.

Lemma wrapper_visited_not_registered_sample :
  0 ∈ [0; 1] ∧
  (∀ a, a ∈ children Sample.list_env 0 → a ∈ [0; 1]) ∧
  (0 ∉ registered_type empty_registry → 0 ∉ [1]).
Proof.
  apply (wrapper_visited_not_registered Sample.list_env 2 [0] empty_registry
           {| validated_type := [0; 1]; registered_type := [1] |} 0).
  - reflexivity.
  - repeat constructor.
  - exact I.
  - by intros ?%elem_of_nil.
Defined.

(** The registrar on the sample graph: a stack of depth five is enough, one
    of depth four is not. *)
Example register_sample :
  SchemaType_new Sample.no_ObjectType_validate Sample.env 5 Sample.root =
    Some (Return Sample.built) ∧
  SchemaType_new Sample.no_ObjectType_validate Sample.env 4 Sample.root = None.
Proof. split; reflexivity. Qed.

(** A wrapper met again is skipped by the visited-check, like any type. *)
Example wrapper_met_twice :
  register_types Sample.list_env 2 [0; 0] empty_registry =
  register_types Sample.list_env 2 [0] empty_registry.
Proof. reflexivity. Qed.

(** ** The validator *)

Lemma is_optional_inner env d :
  is_optional env d → ∃ inner, args d ≫= item0 = Return inner.
Proof.
  destruct d as [|[|a [|n []]]| | | | | | |]; simpl; try done. eauto.
Qed.

(** Every root field either passes the four checks, or makes the loop body
    raise [ValidationError]. *)
Lemma validate_root_field_spec env name f :
  (root_field_ok env (name, f) ∧ validate_root_field env name f = Return ()) ∨
  (¬ root_field_ok env (name, f) ∧
   ∃ msg, validate_root_field env name f = Raise (ValidationError msg)).
Proof.
  unfold validate_root_field, root_field_ok, VALID_ROOT_TYPES; simpl.
  case_decide as Hname.
  { right. split; [|eauto]. intros [[-> | ->] _]; apply Hname;
      repeat constructor. }
  assert (name = "query" ∨ name = "mutation") as Hname'.
  { destruct (decide (name ∈ ["query"; "mutation"])) as [Hin|]; [|done].
    apply elem_of_cons in Hin as [?|Hin]; [by left|].
    apply elem_of_cons in Hin as [?|Hin]; [by right|].
    by apply elem_of_nil in Hin. }
  destruct f as [t|t ps|]; simpl;
    [| |right; split; [by intros (_ & t & inner & ? & _)|eauto]].
  1,2: destruct (is_optional env (type_of env t)) eqn:Hopt; simpl;
    [|right; split; [|eauto]; intros (_ & t' & inner' & [= <-] & Ho & _);
      by rewrite Hopt in Ho].
  1,2: destruct (is_optional_inner env (type_of env t)) as [inner Hinner];
    [by rewrite Hopt|]; rewrite Hinner; simpl.
  1,2: destruct (isinstance_ObjectType (type_of env inner)) eqn:Hobj; simpl;
    [left; split; [|done]; split; [done|]; exists t, inner;
       by rewrite Hopt, Hobj
    |right; split; [|eauto];
       intros (_ & t' & inner' & [= <-] & _ & Hi & Ho);
       rewrite Hinner in Hi; injection Hi as <-; by rewrite Hobj in Ho].
Qed.

Lemma validate_root_fields_spec env root :
  (Forall (root_field_ok env) root ∧ validate_root_fields env root = Return ()) ∨
  (Exists (λ item, ¬ root_field_ok env item) root ∧
   ∃ msg, validate_root_fields env root = Raise (ValidationError msg)).
Proof.
  induction root as [|[name f] rest IH]; simpl.
  - left. by split; [constructor|].
  - destruct (validate_root_field_spec env name f) as [[Hok ->]|[Hbad [msg ->]]];
      simpl.
    + destruct IH as [[Hall ->]|[Hex [msg ->]]].
      * left. by split; [constructor|].
      * right. split; [by apply Exists_cons_tl|eauto].
    + right. split; [by apply Exists_cons_hd|eauto].
Qed.

(** C5: [validate] raises [ValidationError], and schema construction ends
    with it, as soon as some field of the root has a name other than [query]
    and [mutation], or is no field, or has a type that is not
    optional-wrapped, or an inner type that is no Object type.  When every
    field of the root passes, the root-shape checks raise nothing and
    [validate] is what the inherited Object validation makes of the root. *)
Theorem validate_root_shape OV env fuel root :
  (Exists (λ item, ¬ root_field_ok env item) root →
   ∃ msg, validate OV env root = Raise (ValidationError msg) ∧
          SchemaType_new OV env fuel root = Some (Raise (ValidationError msg)))
  ∧
  (Forall (root_field_ok env) root →
   validate_root_fields env root = Return () ∧
   validate OV env root = OV root).
Proof.
  unfold SchemaType_new, validate. split.
  - intros Hex.
    destruct (validate_root_fields_spec env root) as [[Hall _]|[_ [msg ->]]].
    + apply Exists_exists in Hex as (item & Hin & Hbad).
      rewrite Forall_forall in Hall. by destruct (Hbad (Hall item Hin)).
    + by exists msg.
  - intros Hall.
    destruct (validate_root_fields_spec env root) as [[_ ->]|[Hex _]]; [done|].
    apply Exists_exists in Hex as (item & Hin & Hbad).
    rewrite Forall_forall in Hall. by destruct (Hbad (Hall item Hin)).
Qed.

(** ** The execution engine *)

Section ExecutionProperties.

Context {Selections Request Variables Value : Type}.
Variable parse : string → result (list (definition Selections)).
Variable resolve :
  Context Selections Request Variables → object Value → Selections →
  list exception → result Value * list exception.
Variable json_dumps : envelope Value → result string.
Variable construct : nat → result (object Value).
Variable env : list decl.
Variable cls : list (string * field).

Implicit Types (w : world Selections Request Variables Value).
Implicit Types (node : OperationDefinitionNode Selections).
Implicit Types (pre post todo : list (definition Selections)).

Local Abbreviation exec :=
  (execute parse resolve json_dumps construct env cls).
Local Abbreviation exec_definitions :=
  (execute_definitions resolve json_dumps construct env cls).
Local Abbreviation exec_operation :=
  (execute_operation resolve json_dumps construct env cls).

(** The loop passes over definitions that are no query or mutation. *)
Lemma execute_definitions_skip definitions pre todo vars req w :
  Forall (λ d, qualifies d = false) pre →
  exec_definitions definitions (pre ++ todo) vars req w =
  exec_definitions definitions todo vars req w.
Proof.
  induction 1 as [|[node|] pre Hd _ IH]; simpl; [done| |done].
  simpl in Hd. apply bool_decide_eq_false in Hd. by rewrite decide_False.
Qed.

(** The loop ends in the body of the first query or mutation. *)
Lemma execute_definitions_first definitions node post vars req w :
  qualifies (Operation node) = true →
  exec_definitions definitions (Operation node :: post) vars req w =
  exec_operation definitions node vars req w.
Proof.
  simpl. intros Hq%bool_decide_eq_true. by rewrite decide_True.
Qed.

Lemma execute_first query pre node post vars req w :
  parse query = Return (pre ++ Operation node :: post) →
  Forall (λ d, qualifies d = false) pre →
  qualifies (Operation node) = true →
  exec query vars req w =
  exec_operation (pre ++ Operation node :: post) node vars req w.
Proof.
  intros Hparse Hpre Hnode. unfold execute. rewrite Hparse.
  rewrite execute_definitions_skip by done.
  by apply execute_definitions_first.
Qed.

Lemma getitem_absent {V} (d : list (string * V)) key :
  (∀ v, (key, v) ∉ d) → getitem d key = Raise (KeyError key).
Proof.
  induction d as [|[k v] d IH]; intros Hd; simpl; [done|].
  rewrite decide_False.
  - apply IH. intros v' Hin. apply (Hd v'), elem_of_cons. by right.
  - intros ->. apply (Hd v), elem_of_cons. by left.
Qed.

(** The loop body when the root object cannot be built. *)
Lemma execute_operation_no_root definitions node vars req w e :
  root_object construct env cls (operation node) = Raise e →
  exec_operation definitions node vars req w = (Raise e, w).
Proof. intros Hobj. unfold execute_operation. by rewrite Hobj. Qed.

(** The loop body when the resolution returns, or raises an [Exception]:
    the envelope goes to the serializer once the context is reset. *)
Lemma execute_operation_served definitions node vars req w obj r errs :
  root_object construct env cls (operation node) = Return obj →
  resolve {| schema := cls; root_ast := definitions;
             request := req; variables := vars |}
    obj (selection_set node) [] = (r, errs) →
  (∀ e, r = Raise e → isinstance_Exception e) →
  exec_operation definitions node vars req w =
    (match json_dumps
             {| errors := match collected r errs with
                          | [] => None
                          | _ :: _ => Some (collected r errs)
                          end;
                data := produced r obj |} with
     | Return serialized =>
         Return (Some (serialized, bool_decide (collected r errs = [])))
     | Raise e => Raise e
     end,
     {| context := context w;
        trace := trace w ++
          [ContextSet {| schema := cls; root_ast := definitions;
                         request := req; variables := vars |};
           Resolve obj (selection_set node)] ++ printed r ++
          [ContextReset] |}).
Proof.
  intros Hobj Hres Hexc. unfold execute_operation. rewrite Hobj. simpl.
  rewrite Hres. destruct r as [v|e]; simpl.
  - unfold finish, context_reset, emit. simpl. rewrite <- !app_assoc. simpl.
    destruct errs; simpl; by destruct (json_dumps _).
  - specialize (Hexc e eq_refl). destruct (isinstance_Exception e); [|done].
    unfold finish, context_reset, emit. simpl. rewrite <- !app_assoc. simpl.
    destruct errs; simpl; by destruct (json_dumps _).
Qed.

(** The loop body when the resolution raises what is no [Exception]. *)
Lemma execute_operation_escaped definitions node vars req w obj e errs :
  root_object construct env cls (operation node) = Return obj →
  resolve {| schema := cls; root_ast := definitions;
             request := req; variables := vars |}
    obj (selection_set node) [] = (Raise e, errs) →
  isinstance_Exception e = false →
  exec_operation definitions node vars req w =
    (Raise e,
     {| context := Some {| schema := cls; root_ast := definitions;
                           request := req; variables := vars |};
        trace := trace w ++
          [ContextSet {| schema := cls; root_ast := definitions;
                         request := req; variables := vars |};
           Resolve obj (selection_set node)] |}).
Proof.
  intros Hobj Hres He. unfold execute_operation. rewrite Hobj. simpl.
  rewrite Hres, He. unfold emit. simpl. by rewrite <- !app_assoc.
Qed.

(** The events of the loop body: nothing when the root object cannot be
    built, else one binding, one resolution, and one unbinding unless what
    is no [Exception] escapes. *)
Lemma execute_operation_trace definitions node vars req w :
  ∃ evs,
    trace (exec_operation definitions node vars req w).2 =
      trace w ++ evs ∧
    resolutions evs =
      match root_object construct env cls (operation node) with
      | Return obj => [(obj, selection_set node)]
      | Raise _ => []
      end.
Proof.
  destruct (root_object construct env cls (operation node)) as [obj|e]
    eqn:Hobj.
  2:{ rewrite (execute_operation_no_root _ _ _ _ _ _ Hobj).
      exists []. by rewrite app_nil_r. }
  destruct (resolve {| schema := cls; root_ast := definitions;
                       request := req; variables := vars |}
              obj (selection_set node) []) as [r errs] eqn:Hres.
  destruct r as [v|e].
  - rewrite (execute_operation_served _ _ _ _ _ _ _ _ Hobj Hres); [|done].
    by eexists.
  - destruct (isinstance_Exception e) eqn:He.
    + rewrite (execute_operation_served _ _ _ _ _ _ _ _ Hobj Hres).
      * by eexists.
      * intros ? [= <-]. by rewrite He.
    + rewrite (execute_operation_escaped _ _ _ _ _ _ _ _ Hobj Hres He).
      by eexists.
Qed.

(** C7: [execute] runs the first definition that is a query or a mutation
    and nothing else: definitions before it that are no operation, or an
    operation of another kind, are passed over, the result is the one of
    the loop body on that definition, and the only resolution made on the
    way is the one of that definition. *)
Theorem execute_first_operation_only query pre node post vars req w :
  parse query = Return (pre ++ Operation node :: post) →
  Forall (λ d, qualifies d = false) pre →
  qualifies (Operation node) = true →
  exec query vars req w =
    exec_operation (pre ++ Operation node :: post) node vars req w ∧
  ∃ evs,
    trace (exec query vars req w).2 = trace w ++ evs ∧
    resolutions evs =
      match root_object construct env cls (operation node) with
      | Return obj => [(obj, selection_set node)]
      | Raise _ => []
      end.
Proof.
  intros Hparse Hpre Hnode.
  rewrite (execute_first _ _ _ _ _ _ _ Hparse Hpre Hnode).
  split; [done|apply execute_operation_trace].
Qed.

(** C9: on a document without a query or mutation, [execute] raises
    nothing and returns [None]; no context is bound and nothing is
    resolved. *)
Theorem execute_without_operation query definitions vars req w :
  parse query = Return definitions →
  Forall (λ d, qualifies d = false) definitions →
  exec query vars req w = (Return None, w).
Proof.
  intros Hparse Hnone. unfold execute. rewrite Hparse.
  rewrite <- (app_nil_r definitions) at 2.
  by rewrite execute_definitions_skip.
Qed.

(** C10: when the root has no [mutation] field and the first query or
    mutation of the document is a mutation, [execute] raises
    [KeyError('mutation')]; the world is left as it was, so no context was
    bound and no error was collected. *)
Theorem execute_missing_mutation query pre node post vars req w :
  (∀ f, ("mutation", f) ∉ cls) →
  parse query = Return (pre ++ Operation node :: post) →
  Forall (λ d, qualifies d = false) pre →
  operation node = MUTATION →
  exec query vars req w = (Raise (KeyError "mutation"), w).
Proof.
  intros Hcls Hparse Hpre Hop.
  rewrite (execute_first _ _ _ _ _ _ _ Hparse Hpre).
  - apply execute_operation_no_root. unfold root_object. rewrite Hop; simpl.
    by rewrite getitem_absent.
  - simpl. by rewrite Hop.
Qed.


(** C4: an execution that reaches the construction of the envelope hands
    the serializer an envelope whose [errors] is the collected list, or
    [None] when that list is empty, and whose [data] is what [obj] is bound
    to: the value the resolution returned, or still the root object when the
    resolution raised.  What [execute] returns is the serialized text paired
    with a flag that is [true] exactly when the collected list is empty. *)
Theorem execute_envelope
    query definitions pre node post vars req w obj r collected_before :
  definitions = pre ++ Operation node :: post →
  parse query = Return definitions →
  Forall (λ d, qualifies d = false) pre →
  qualifies (Operation node) = true →
  root_object construct env cls (operation node) = Return obj →
  resolve {| schema := cls; root_ast := definitions;
             request := req; variables := vars |}
    obj (selection_set node) [] = (r, collected_before) →
  (∀ e, r = Raise e → isinstance_Exception e) →
  exec query vars req w =
    (match json_dumps
             {| errors := match collected r collected_before with
                          | [] => None
                          | _ :: _ => Some (collected r collected_before)
                          end;
                data := produced r obj |} with
     | Return serialized =>
         Return (Some (serialized,
                       bool_decide (collected r collected_before = [])))
     | Raise e => Raise e
     end,
     {| context := context w;
        trace := trace w ++
          [ContextSet {| schema := cls; root_ast := definitions;
                         request := req; variables := vars |};
           Resolve obj (selection_set node)] ++ printed r ++
          [ContextReset] |}).
Proof.
  intros -> Hparse Hpre Hnode Hobj Hres Hexc.
  rewrite (execute_first _ _ _ _ _ _ _ Hparse Hpre Hnode).
  by apply execute_operation_served.
Qed.

End ExecutionProperties.

(** *** The claims on a sample schema *)

Lemma execute_first_operation_only_sample :
  execute Sample.parse Sample.resolve Sample.json_dumps Sample.construct
    Sample.env Sample.root "{ hello }" () () Sample.idle =
  execute_operation Sample.resolve Sample.json_dumps Sample.construct
    Sample.env Sample.root
    ([OtherDefinition; Operation Sample.subscription_ticks] ++
     Operation Sample.query_hello :: [Operation Sample.query_boom])
    Sample.query_hello () () Sample.idle ∧
  ∃ evs,
    trace (execute Sample.parse Sample.resolve Sample.json_dumps
             Sample.construct Sample.env Sample.root "{ hello }" () ()
             Sample.idle).2 =
      trace Sample.idle ++ evs ∧
    resolutions evs =
      match root_object Sample.construct Sample.env Sample.root
              (operation Sample.query_hello) with
      | Return obj => [(obj, selection_set Sample.query_hello)]
      | Raise _ => []
      end.
Proof.
  apply (execute_first_operation_only Sample.parse Sample.resolve
           Sample.json_dumps Sample.construct Sample.env Sample.root
           "{ hello }"
           [OtherDefinition; Operation Sample.subscription_ticks]
           Sample.query_hello [Operation Sample.query_boom]).
  - reflexivity.
  - repeat constructor.
  - reflexivity.
Defined.

Lemma execute_without_operation_sample :
  execute Sample.parse Sample.resolve Sample.json_dumps Sample.construct
    Sample.env Sample.root "fragment F on Query { hello }" () ()
    Sample.idle =
  (Return None, Sample.idle).
Proof.
  apply (execute_without_operation Sample.parse Sample.resolve
           Sample.json_dumps Sample.construct Sample.env Sample.root
           "fragment F on Query { hello }"
           [OtherDefinition; Operation Sample.subscription_ticks]).
  - reflexivity.
  - repeat constructor.
Defined.

Lemma execute_missing_mutation_sample :
  validate Sample.no_ObjectType_validate Sample.env Sample.root = Return () ∧
  execute Sample.parse Sample.resolve Sample.json_dumps Sample.construct
    Sample.env Sample.root "mutation { bump }" () () Sample.idle =
  (Raise (KeyError "mutation"), Sample.idle).
Proof.
  split; [reflexivity|].
  apply (execute_missing_mutation Sample.parse Sample.resolve
           Sample.json_dumps Sample.construct Sample.env Sample.root
           "mutation { bump }"
           [OtherDefinition] Sample.mutation_bump
           [Operation Sample.query_hello]).
  - intros f Hin. apply elem_of_cons in Hin as [[=]|Hin].
    by apply elem_of_nil in Hin.
  - reflexivity.
  - repeat constructor.
  - reflexivity.
Defined.


Lemma execute_envelope_sample :
  execute Sample.parse Sample.resolve Sample.json_dumps Sample.construct
    Sample.env Sample.root "{ hello }" () () Sample.idle =
  (Return (Some ("{errors: null, data: world}", true)),
   {| context := None;
      trace :=
        [ContextSet
           {| schema := Sample.root;
              root_ast := [OtherDefinition;
                           Operation Sample.subscription_ticks;
                           Operation Sample.query_hello;
                           Operation Sample.query_boom];
              request := (); variables := () |};
         Resolve (Instance 1) ["hello"];
         ContextReset] |}).
Proof.
  apply (execute_envelope Sample.parse Sample.resolve Sample.json_dumps
           Sample.construct Sample.env Sample.root "{ hello }"
           [OtherDefinition; Operation Sample.subscription_ticks;
            Operation Sample.query_hello; Operation Sample.query_boom]
           [OtherDefinition; Operation Sample.subscription_ticks]
           Sample.query_hello [Operation Sample.query_boom] () ()
           Sample.idle (Instance 1) (Return "world") []).
  - reflexivity.
  - reflexivity.
  - repeat constructor.
  - reflexivity.
  - reflexivity.
  - reflexivity.
  - intros e [=].
Defined.

(** The envelope on the three ways through the [try] statement: a value and
    no error, a value and a collected error, and a raised [Exception] after
    a collected error. *)
Example execute_envelope_hello :
  (execute Sample.parse Sample.resolve Sample.json_dumps Sample.construct
     Sample.env Sample.root "{ hello }" () () Sample.idle).1 =
  Return (Some ("{errors: null, data: world}", true)).
Proof. reflexivity. Qed.

Example execute_envelope_partial :
  (execute Sample.parse Sample2.resolve_partial Sample.json_dumps
     Sample.construct Sample.env Sample.root "{ hello }" () ()
     Sample.idle).1 =
  Return (Some ("{errors: [...], data: partial}", false)).
Proof. reflexivity. Qed.

Example execute_envelope_boom :
  (execute Sample.parse Sample.resolve Sample.json_dumps Sample.construct
     Sample.env Sample.root "{ boom }" () () Sample.idle).1 =
  Return (Some ("{errors: [...], data: {}}", false)).
Proof. reflexivity. Qed.

(** A failure of the parser leaves [execute] as it is raised. *)
Example execute_syntax_error :
  execute Sample.parse Sample.resolve Sample.json_dumps Sample.construct
    Sample.env Sample.root "{ hello" () () Sample.idle =
  (Raise (Exception "Syntax Error"), Sample.idle).
Proof. reflexivity. Qed.

(** A root class that cannot be built without arguments: the [TypeError] of
    the constructor leaves [execute] before a context is bound. *)
Example execute_constructor_error :
  execute Sample.parse Sample.resolve Sample.json_dumps
    Sample2.construct_strict Sample.env Sample.root "{ hello }" () ()
    Sample.idle =
  (Raise (TypeError "__init__() missing 1 required positional argument"),
   Sample.idle).
Proof. reflexivity. Qed.

(** An envelope that the encoder cannot serialize: the [TypeError] of
    [json.dumps] leaves [execute], after the context is reset. *)
Example execute_serializer_error :
  execute Sample.parse Sample.resolve Sample2.json_dumps_strict
    Sample.construct Sample.env Sample.root "{ boom }" () () Sample.idle =
  (Raise (TypeError "Object is not JSON serializable"),
   {| context := None;
      trace :=
        [ContextSet
           {| schema := Sample.root;
              root_ast := [Operation Sample.query_boom;
                           Operation Sample.query_hello];
              request := (); variables := () |};
         Resolve (Instance 1) ["boom"];
         PrintExc (Exception "boom");
         ContextReset] |}).
Proof. reflexivity. Qed.

(** * Further properties *)

(** ** The registrar *)

Section RegistrarMore.
Variable env : list decl.

Lemma reachable_mono roots roots' t :
  (∀ r, r ∈ roots → r ∈ roots') →
  reachable env roots t → reachable env roots' t.
Proof.
  intros Hsub. induction 1 as [t Ht|t u _ IH Hu].
  - apply reachable_root. by apply Hsub.
  - by eapply reachable_child.
Qed.

Lemma reachable_trans roots roots' t :
  (∀ r, r ∈ roots' → reachable env roots r) →
  reachable env roots' t → reachable env roots t.
Proof.
  intros Hsub. induction 1 as [t Ht|t u _ IH Hu].
  - by apply Hsub.
  - by eapply reachable_child.
Qed.

Lemma reachable_children p ts t :
  (∀ c, c ∈ ts → c ∈ children env p) →
  reachable env ts t → reachable env [p] t.
Proof.
  intros Hsub. apply reachable_trans. intros r Hr.
  apply (reachable_child _ _ p); [|by apply Hsub].
  apply reachable_root, elem_of_cons. by left.
Qed.

Lemma param_return_types_Raise fields e :
  param_return_types fields = Raise e →
  e = AttributeError "ftype" ∧ NotAField ∈ fields.
Proof.
  induction fields as [|[t|t ps|] rest IH]; simpl; [done| | |].
  - destruct (param_return_types rest); [done|]. intros [= <-].
    destruct (IH eq_refl) as [-> ?]. split; [done|]. by apply elem_of_cons; right.
  - destruct (param_return_types rest); [done|]. intros [= <-].
    destruct (IH eq_refl) as [-> ?]. split; [done|]. by apply elem_of_cons; right.
  - intros [= <-]. split; [done|]. apply elem_of_cons. by left.
Qed.

Lemma param_return_types_fields fields ts :
  param_return_types fields = Return ts → NotAField ∉ fields.
Proof.
  revert ts. induction fields as [|[t|t ps|] rest IH]; intros ts; simpl.
  - intros _ ?%elem_of_nil. done.
  - destruct (param_return_types rest); [|done]. intros _.
    intros [?|?]%elem_of_cons; [done|]. by eapply IH.
  - destruct (param_return_types rest); [|done]. intros _.
    intros [?|?]%elem_of_cons; [done|]. by eapply IH.
  - done.
Qed.

Lemma param_return_types_NotAField fields :
  NotAField ∈ fields →
  param_return_types fields = Raise (AttributeError "ftype").
Proof.
  intros Hin. destruct (param_return_types fields) as [ts|e] eqn:Hp.
  - by apply param_return_types_fields in Hp.
  - by apply param_return_types_Raise in Hp as [-> _].
Qed.

End RegistrarMore.

Section RegistrarTracing.
Variable env : list decl.

Lemma traces_back_mono ts ts' st r :
  (∀ t, t ∈ ts → t ∈ ts') →
  traces_back env ts st r → traces_back env ts' st r.
Proof.
  intros Hsub. destruct r as [st'|e]; simpl.
  - intros H x Hx. destruct (H x Hx) as [?|[? ?]]; [by left|right].
    split; [by eapply reachable_mono|done].
  - intros [-> (x & ? & ?)]. split; [done|]. exists x.
    split; [by eapply reachable_mono|done].
Qed.

Lemma traces_back_reach ts ts' st r :
  (∀ t, t ∈ ts' → reachable env ts t) →
  traces_back env ts' st r → traces_back env ts st r.
Proof.
  intros Hsub. destruct r as [st'|e]; simpl.
  - intros H x Hx. destruct (H x Hx) as [?|[? ?]]; [by left|right].
    split; [by eapply reachable_trans|done].
  - intros [-> (x & ? & ?)]. split; [done|]. exists x.
    split; [by eapply reachable_trans|done].
Qed.

Lemma traces_back_seq ts1 ts2 st st1 r :
  traces_back env ts1 st (Return st1) →
  traces_back env ts2 st1 r →
  traces_back env (ts1 ++ ts2) st r.
Proof.
  intros H1 H2. destruct r as [st'|e]; simpl in *.
  - intros x Hx. destruct (H2 x Hx) as [Hx1|[? ?]].
    + destruct (H1 x Hx1) as [?|[? ?]]; [by left|right].
      split; [|done]. eapply reachable_mono; [|done].
      intros. apply elem_of_app. by left.
    + right. split; [|done]. eapply reachable_mono; [|done].
      intros. apply elem_of_app. by right.
  - destruct H2 as [-> (x & ? & ?)]. split; [done|]. exists x.
    split; [|done]. eapply reachable_mono; [|done].
    intros. apply elem_of_app. by right.
Qed.

(** From a call on children of [p], made once [p] is appended, to the
    iteration on [p]. *)
Lemma traces_back_visit p cs st s2 r :
  (¬ ill_fielded env p) →
  (∀ c, c ∈ cs → c ∈ children env p) →
  validated_type s2 = validated_type st ++ [p] →
  traces_back env cs s2 r →
  traces_back env [p] st r.
Proof.
  intros Hp Hcs Hv. destruct r as [st'|e]; simpl.
  - intros H x Hx. destruct (H x Hx) as [Hx2|[? ?]].
    + rewrite Hv in Hx2. apply elem_of_app in Hx2 as [?|Hx2]; [by left|].
      apply list_elem_of_singleton in Hx2 as ->. right.
      split; [|done]. apply reachable_root, elem_of_cons. by left.
    + right. split; [by eapply reachable_children|done].
  - intros [-> (x & ? & ?)]. split; [done|]. exists x.
    split; [by eapply reachable_children|done].
Qed.

Lemma register_fields_type_with_tracing rec fields st r :
  tracing env rec →
  register_fields_type_with rec fields st = Some r →
  (NotAField ∈ fields ∧ r = Raise (AttributeError "ftype")) ∨
  ((NotAField ∉ fields) ∧ traces_back env (field_types fields) st r).
Proof.
  intros Hrec. unfold register_fields_type_with.
  destruct (param_return_types fields) as [ts|e] eqn:Hp.
  - intros Hr. right. split; [by eapply param_return_types_fields|].
    apply param_return_types_Return in Hp as ->. by apply Hrec.
  - intros [= <-]. left. by apply param_return_types_Raise in Hp as [-> ?].
Qed.

Lemma visit_tracing rec p st r :
  tracing env rec →
  visit env rec p st = Some r → traces_back env [p] st r.
Proof.
  intros Hrec. unfold visit. case_decide as Hp.
  { intros [= <-]. simpl. auto. }
  assert (∀ fs, fields_of (type_of env p) = fs →
            ∀ s2 r, validated_type s2 = validated_type st ++ [p] →
              (∀ c, c ∈ field_types fs → c ∈ children env p) →
              register_fields_type_with rec fs s2 = Some r →
              ((NotAField ∉ fs) ∧ traces_back env [p] st r) ∨
              (r = Raise (AttributeError "ftype") ∧
               traces_back env [p] st r)) as Hfields.
  { intros fs Hfs s2 r' Hv Hcs Hr.
    apply register_fields_type_with_tracing in Hr as [[Hin ->]|[Hfs' Htr]];
      [| |done].
    - right. split; [done|]. split; [done|]. exists p.
      split; [apply reachable_root, elem_of_cons; by left|].
      unfold ill_fielded. by rewrite Hfs.
    - left. split; [done|]. eapply traces_back_visit; [|done..].
      unfold ill_fielded. by rewrite Hfs. }
  assert (∀ cs s2 r,
            fields_of (type_of env p) = [] →
            (∀ c, c ∈ cs → c ∈ children env p) →
            validated_type s2 = validated_type st ++ [p] →
            rec cs s2 = Some r → traces_back env [p] st r) as Hplain.
  { intros cs s2 r' Hfs Hcs Hv Hr%Hrec.
    apply (traces_back_visit p cs st s2); [|done..].
    unfold ill_fielded. rewrite Hfs. by intros ?%elem_of_nil. }
  assert (fields_of (type_of env p) = [] →
          ∀ s2, validated_type s2 = validated_type st ++ [p] →
            traces_back env [p] st (Return s2)) as Hleaf.
  { intros Hfs s2 Hv. apply (traces_back_visit p [] st s2); [| |done|].
    - unfold ill_fielded. rewrite Hfs. by intros ?%elem_of_nil.
    - by intros c ?%elem_of_nil.
    - simpl. auto. }
  unfold children in *.
  destruct (type_of env p) as [fs|ts|ts|ms|fs|fs subs| | |] eqn:Hd; simpl.
  - intros Hr. by eapply (Hfields _ eq_refl) in Hr as [[_ ?]|[_ ?]].
  - by apply Hplain.
  - by apply Hplain.
  - by apply Hplain.
  - intros Hr. by eapply (Hfields _ eq_refl) in Hr as [[_ ?]|[_ ?]].
  - destruct (register_fields_type_with rec (values fs) _)
      as [[s3|e]|] eqn:H1; simpl; [| |done].
    + intros Hr%Hrec.
      eapply (Hfields _ eq_refl) in H1 as [[Hwf H1]|[? _]]; [|done|done|].
      2:{ intros. apply elem_of_app. by left. }
      apply (traces_back_reach [p] ([p] ++ subs)).
      { intros t [->%list_elem_of_singleton|Ht]%elem_of_app.
        - apply reachable_root, elem_of_cons. by left.
        - apply (reachable_child _ _ p);
            [apply reachable_root, elem_of_cons; by left|].
          unfold children. rewrite Hd. apply elem_of_app. by right. }
      by eapply traces_back_seq.
    + intros [= <-].
      eapply (Hfields _ eq_refl) in H1 as [[_ ?]|[_ ?]]; try done.
      all: intros; apply elem_of_app; by left.
  - intros [= <-]. by apply Hleaf.
  - intros [= <-]. by apply Hleaf.
  - intros [= <-]. by apply Hleaf.
Qed.

Lemma for_each_tracing body (ts : list nat) st r :
  (∀ p s r, body p s = Some r → traces_back env [p] s r) →
  for_each body ts st = Some r → traces_back env ts st r.
Proof.
  intros Hbody. revert st. induction ts as [|p rest IH]; intros st; simpl.
  - intros [= <-]. simpl. auto.
  - destruct (body p st) as [[s1|e]|] eqn:H1; simpl; [| |done].
    + intros Hr%IH. apply Hbody in H1.
      by apply (traces_back_seq [p] rest st s1).
    + intros [= <-]. apply Hbody in H1.
      eapply traces_back_mono; [|done].
      intros t ->%list_elem_of_singleton. apply elem_of_cons. by left.
Qed.

Lemma register_types_tracing fuel : tracing env (register_types env fuel).
Proof.
  induction fuel as [|fuel IH]; intros ts st r; simpl; [done|].
  apply for_each_tracing. intros p s r'. by apply visit_tracing.
Qed.

(** A candidate list that is visited already leaves the lists alone. *)
Lemma for_each_visit_visited rec (ts : list nat) st :
  (∀ t, t ∈ ts → t ∈ validated_type st) →
  for_each (visit env rec) ts st = Some (Return st).
Proof.
  induction ts as [|p rest IH]; intros Hts; simpl; [done|].
  unfold visit at 1. rewrite decide_True.
  - simpl. apply IH. intros t Ht. apply Hts, elem_of_cons. by right.
  - apply Hts, elem_of_cons. by left.
Qed.

Lemma for_each_app {A S} (body : A → S → fueled S) xs ys st :
  for_each body (xs ++ ys) st =
  fbind (for_each body xs st) (for_each body ys).
Proof.
  revert st. induction xs as [|x xs IH]; intros st; simpl; [done|].
  destruct (body x st) as [[s1|e]|]; simpl; auto.
Qed.


(** *** Further results on the registrar *)

(** X1: the registrar only appends: the lists it leaves have the lists it
    found as prefixes. *)
Theorem register_types_append_only fuel types st st' :
  register_types env fuel types st = Some (Return st') →
  validated_type st `prefix_of` validated_type st' ∧
  registered_type st `prefix_of` registered_type st'.
Proof.
  intros [(new & Hv & Hr & _) _]%register_types_registers.
  split; [by exists new|by eexists].
Qed.

(** X2: the registrar keeps both lists free of duplicates, and
    [registered_type] within [validated_type]. *)
Theorem register_types_keeps_NoDup fuel types st st' :
  register_types env fuel types st = Some (Return st') →
  NoDup (validated_type st) → NoDup (registered_type st) →
  (∀ t, t ∈ registered_type st → t ∈ validated_type st) →
  NoDup (validated_type st') ∧ NoDup (registered_type st') ∧
  (∀ t, t ∈ registered_type st' → t ∈ validated_type st').
Proof.
  intros [(new & Hv & Hr & Hnew & Hfresh & _) _]%register_types_registers
    Hnv Hnr Hsub.
  rewrite Hv, Hr. split_and!.
  - apply NoDup_app. split_and!; [done| |done].
    intros x Hx Hx'. by apply (Hfresh x).
  - apply NoDup_app. split_and!; [done| |by apply NoDup_filter].
    intros x Hx [_ Hx']%list_elem_of_filter. apply (Hfresh x); auto.
  - intros t [?|[_ ?]%list_elem_of_filter]%elem_of_app;
      apply elem_of_app; auto.
Qed.

(** X3: whatever the registrar appends is reachable from the candidates it
    was called on, and what it appends to [registered_type] is a named
    type. *)
Theorem register_types_only_reachable fuel types st st' t :
  register_types env fuel types st = Some (Return st') →
  (t ∈ validated_type st' →
   t ∈ validated_type st ∨ reachable env types t) ∧
  (t ∈ registered_type st' →
   t ∈ registered_type st ∨
   (reachable env types t ∧ is_named (type_of env t))).
Proof.
  intros Hrun. pose proof (register_types_tracing _ _ _ _ Hrun) as Htr.
  apply register_types_registers in Hrun as [(new & Hv & Hr & _ & Hf & _) _].
  simpl in Htr. split.
  - intros Ht. destruct (Htr t Ht) as [?|[? _]]; auto.
  - rewrite Hr. intros [?|[Hn Ht]%list_elem_of_filter]%elem_of_app; [by left|].
    right. split; [|done].
    destruct (Htr t) as [Hold|[? _]]; [|by destruct (Hf t Ht)|done].
    rewrite Hv. apply elem_of_app. by right.
Qed.

(** X5: the registrar is idempotent: called again on the same candidates, in
    the state it left, it changes nothing. *)
Theorem register_types_idempotent fuel fuel' types st st' :
  register_types env fuel types st = Some (Return st') →
  register_types env (S fuel') types st' = Some (Return st').
Proof.
  intros [_ Hts]%register_types_registers. simpl.
  by apply for_each_visit_visited.
Qed.

(** X6: registering a concatenation of candidate lists is registering the
    first list and then, in the state this leaves, the second. *)
Theorem register_types_app fuel ts1 ts2 st :
  register_types env fuel (ts1 ++ ts2) st =
  fbind (register_types env fuel ts1 st) (register_types env fuel ts2).
Proof. destruct fuel as [|fuel]; simpl; [done|]. apply for_each_app. Qed.

(** X7: a field collection with a value that is no field makes
    [register_fields_type] raise [AttributeError] before any type is looked
    at, whatever the state and the depth allowed. *)
Theorem register_fields_type_non_field fuel fields st :
  NotAField ∈ fields →
  register_fields_type env fuel fields st =
    Some (Raise (AttributeError "ftype")).
Proof.
  intros Hin. unfold register_fields_type, register_fields_type_with.
  by rewrite param_return_types_NotAField.
Qed.

End RegistrarTracing.

Lemma validate_Return_fields OV env root :
  validate OV env root = Return () →
  Forall (root_field_ok env) root ∧ NotAField ∉ values root.
Proof.
  unfold validate. intros Hval.
  destruct (validate_root_fields_spec env root) as [[Hall _]|[_ [msg Hmsg]]].
  - split; [done|]. unfold values. intros ([name f] & Hf & Hin)%list_elem_of_fmap.
    rewrite Forall_forall in Hall.
    destruct (Hall _ Hin) as (_ & t & inner & Ht & _). simpl in *.
    by subst f.
  - by rewrite Hmsg in Hval.
Qed.

(** The visited types of a constructed schema are the types reachable from
    the fields of the root. *)
Lemma SchemaType_new_validated OV env fuel root st t :
  SchemaType_new OV env fuel root = Some (Return st) →
  t ∈ validated_type st ↔
  reachable env (field_types (values root)) t.
Proof.
  intros Hnew. pose proof Hnew as (_ & _ & Hreach)%SchemaType_new_Return.
  split; [|apply Hreach]. unfold SchemaType_new in Hnew.
  destruct (validate OV env root) as [[]|]; [|done].
  apply (register_fields_type_with_tracing env) in Hnew as [[_ ?]|[_ Htr]];
    [done| |apply register_types_tracing].
  simpl in Htr. intros Ht.
  destruct (Htr t Ht) as [?%elem_of_nil|[? _]]; done.
Qed.

(** X4: the registry of a constructed schema is exactly the named types
    reachable from the fields of the root, in the order of their first
    visit. *)
Theorem registered_type_characterization OV env fuel root st :
  SchemaType_new OV env fuel root = Some (Return st) →
  registered_type st = filter (named env) (validated_type st) ∧
  ∀ t, t ∈ registered_type st ↔
       is_named (type_of env t) ∧
       reachable env (field_types (values root)) t.
Proof.
  intros Hnew. pose proof Hnew as (_ & [_ Hreg]%grows_empty_registered & _)
    %SchemaType_new_Return.
  split; [done|]. intros t. rewrite Hreg, list_elem_of_filter.
  by rewrite (SchemaType_new_validated _ _ _ _ _ t Hnew).
Qed.

(** X8: once validation has passed, construction comes to a schema exactly
    when every type reachable from the root has fields only; otherwise it
    raises [AttributeError]. *)
Theorem SchemaType_new_outcome OV env fuel root :
  validate OV env root = Return () → length env < fuel →
  ((∀ t, reachable env (field_types (values root)) t → ¬ ill_fielded env t) →
   ∃ st, SchemaType_new OV env fuel root = Some (Return st)) ∧
  ((∃ t, reachable env (field_types (values root)) t ∧ ill_fielded env t) →
   SchemaType_new OV env fuel root = Some (Raise (AttributeError "ftype"))).
Proof.
  intros Hval Hfuel. pose proof (validate_Return_fields _ _ _ Hval) as [_ Hroot].
  unfold SchemaType_new. rewrite Hval.
  destruct (register_fields_type_with_completes env fuel
              (register_types env fuel) (values root)
              {| validated_type := []; registered_type := [] |})
    as [r Hr]; [apply register_types_completes| |].
  { pose proof (size_unvisited env empty_registry).
    unfold empty_registry in *. lia. }
  pose proof Hr as Htr.
  apply (register_fields_type_with_tracing env) in Htr as [[? _]|[_ Htr]];
    [done| |apply register_types_tracing].
  unfold register_fields_type. rewrite Hr. destruct r as [st|e]; simpl in Htr.
  - split; [by eauto|]. intros (t & Ht & Hill).
    apply register_fields_type_registers in Hr as [Hg Hroots].
    pose proof (grows_empty_closed env _ _ _ Hg Hroots Ht) as Hin.
    destruct (Htr t Hin) as [?%elem_of_nil|[_ ?]]; done.
  - destruct Htr as [-> (x & Hx & Hill)]. split; [|done].
    intros Hall. by destruct (Hall x Hx).
Qed.

(** X9: the Object type behind every field of the root of a constructed
    schema is in the registry. *)
Theorem root_types_registered OV env fuel root st name f :
  SchemaType_new OV env fuel root = Some (Return st) →
  (name, f) ∈ root →
  ∃ t inner,
    ftype f = Return t ∧
    args (type_of env t) ≫= item0 = Return inner ∧
    isinstance_ObjectType (type_of env inner) ∧
    inner ∈ registered_type st.
Proof.
  intros Hnew Hin.
  pose proof Hnew as (Hval & [_ Hreg]%grows_empty_registered & Hreach)
    %SchemaType_new_Return.
  apply validate_Return_fields in Hval as [Hall _].
  rewrite Forall_forall in Hall.
  destruct (Hall _ Hin) as (_ & t & inner & Ht & _ & Hinner & Hobj).
  simpl in *. exists t, inner. split_and!; try done.
  rewrite Hreg. apply list_elem_of_filter. split.
  { unfold named. by destruct (type_of env inner). }
  apply Hreach. apply (reachable_child _ _ t).
  - apply reachable_root. eapply ftype_field_types; [|done].
    unfold values. apply list_elem_of_fmap. by exists (name, f).
  - unfold children.
    destruct (type_of env t) as [|[|a ?]|[|a ?]| | | | | |]; simplify_eq/=;
      apply elem_of_cons; by left.
Qed.


(** ** The validator *)

(** X10: validation stops at the first field of the root that fails a check:
    the error is the one of that field, the fields after it are not looked
    at, and the inherited Object validation is not consulted. *)
Theorem validate_reports_first_failure OV env pre name f post :
  Forall (root_field_ok env) pre → ¬ root_field_ok env (name, f) →
  ∃ msg,
    validate_root_field env name f = Raise (ValidationError msg) ∧
    validate OV env (pre ++ (name, f) :: post) = Raise (ValidationError msg).
Proof.
  intros Hpre Hbad.
  destruct (validate_root_field_spec env name f) as [[? _]|[_ [msg Hmsg]]];
    [done|].
  exists msg. split; [done|]. unfold validate.
  assert (validate_root_fields env (pre ++ (name, f) :: post)
          = Raise (ValidationError msg)) as ->; [|done].
  induction Hpre as [|[n g] pre Hok _ IH]; simpl.
  - by rewrite Hmsg.
  - destruct (validate_root_field_spec env n g) as [[_ ->]|[? _]]; done.
Qed.

Lemma getitem_Return {V} (d : list (string * V)) key v :
  getitem d key = Return v → (key, v) ∈ d.
Proof.
  induction d as [|[k v'] d IH]; simpl; [done|].
  case_decide as Hk.
  - intros [= ->]. subst k. apply elem_of_cons. by left.
  - intros ?%IH. apply elem_of_cons. by right.
Qed.

Lemma getitem_Raise {V} (d : list (string * V)) key e :
  getitem d key = Raise e → e = KeyError key ∧ ∀ v, (key, v) ∉ d.
Proof.
  induction d as [|[k v'] d IH]; simpl.
  - intros [= <-]. split; [done|]. by intros v ?%elem_of_nil.
  - case_decide as Hk; [done|]. intros [-> Hd]%IH. split; [done|].
    intros v [[= ? ?]|?]%elem_of_cons; [done|]. by eapply Hd.
Qed.

Lemma root_object_validated {Value : Type}
    (construct : nat → result (object Value)) env cls op :
  validate_root_fields env cls = Return () → op ∈ [QUERY; MUTATION] →
  (∃ class, isinstance_ObjectType (type_of env class) ∧
            root_object construct env cls op = construct class) ∨
  (∃ name, FIELD_MAP_getitem FIELD_MAP op = Return name ∧
           (∀ f, (name, f) ∉ cls) ∧
           root_object construct env cls op = Raise (KeyError name)).
Proof.
  intros Hval Hop.
  assert (∃ name, FIELD_MAP_getitem FIELD_MAP op = Return name)
    as [name Hname].
  { apply elem_of_cons in Hop as [->|Hop]; [by eexists|].
    apply elem_of_cons in Hop as [->|Hop]; [by eexists|].
    by apply elem_of_nil in Hop. }
  unfold root_object. rewrite Hname. simpl.
  destruct (getitem cls name) as [f|e] eqn:Hget; simpl.
  - left. apply getitem_Return in Hget.
    destruct (validate_root_fields_spec env cls) as [[Hall _]|[_ [msg Hmsg]]];
      [|by rewrite Hmsg in Hval].
    rewrite Forall_forall in Hall.
    destruct (Hall _ Hget) as (_ & t & inner & Ht & _ & Hinner & Hobj).
    simpl in *. rewrite Ht. simpl. rewrite Hinner. simpl. by exists inner.
  - right. apply getitem_Raise in Hget as [-> Hnone]. by exists name.
Qed.

(** X11: on a root that passed the root-shape checks, the lookup in the
    expression that builds the root object for a query or a mutation either
    finds an Object type, and the expression is the call of that class
    without arguments, or raises [KeyError] for the name of a field that the
    root does not declare.  The lookup raises nothing else; what the call of
    the class raises is another matter. *)
Theorem validated_root_object {Value : Type}
    (construct : nat → result (object Value)) env cls op :
  validate_root_fields env cls = Return () → op ∈ [QUERY; MUTATION] →
  (∃ class, isinstance_ObjectType (type_of env class) ∧
            root_object construct env cls op = construct class) ∨
  (∃ name, FIELD_MAP_getitem FIELD_MAP op = Return name ∧
           (∀ f, (name, f) ∉ cls) ∧
           root_object construct env cls op = Raise (KeyError name)).
Proof. apply root_object_validated. Qed.

(** ** The execution engine *)

Section ExecutionMore.

Context {Selections Request Variables Value : Type}.
Variable parse : string → result (list (definition Selections)).
Variable resolve :
  Context Selections Request Variables → object Value → Selections →
  list exception → result Value * list exception.
Variable json_dumps : envelope Value → result string.
Variable construct : nat → result (object Value).
Variable env : list decl.
Variable cls : list (string * field).

Implicit Types (w : world Selections Request Variables Value).
Implicit Types (node : OperationDefinitionNode Selections).
Implicit Types (pre post todo : list (definition Selections)).

Local Abbreviation exec :=
  (execute parse resolve json_dumps construct env cls).
Local Abbreviation exec_definitions :=
  (execute_definitions resolve json_dumps construct env cls).
Local Abbreviation exec_operation :=
  (execute_operation resolve json_dumps construct env cls).

(** The loop either falls through, or ends in the body of a query or
    mutation of the document. *)
Lemma execute_definitions_cases definitions todo vars req w :
  exec_definitions definitions todo vars req w = (Return None, w) ∨
  ∃ node, Operation node ∈ todo ∧ qualifies (Operation node) = true ∧
    exec_definitions definitions todo vars req w =
    exec_operation definitions node vars req w.
Proof.
  induction todo as [|[node|] todo IH]; simpl; [by left| |].
  - case_decide as Hq.
    + right. exists node. split_and!; [apply elem_of_cons; by left| |done].
      by apply bool_decide_eq_true.
    + destruct IH as [?|(node' & ? & ? & ?)]; [by left|right].
      exists node'. split_and!; [apply elem_of_cons; by right|done..].
  - destruct IH as [?|(node' & ? & ? & ?)]; [by left|right].
    exists node'. split_and!; [apply elem_of_cons; by right|done..].
Qed.

(** A resolution either raises what is no [Exception], or is one whose
    envelope is served. *)
Lemma resolution_cases (r : result Value) :
  (∃ e, r = Raise e ∧ isinstance_Exception e = false) ∨
  (∀ e, r = Raise e → isinstance_Exception e).
Proof.
  destruct r as [v|e]; [by right|].
  destruct (isinstance_Exception e) eqn:He.
  - right. intros ? [= <-]. by rewrite He.
  - left. by exists e.
Qed.


(** X13: whenever [execute] returns, the context variable holds what it held
    before the call.  Either nothing happened at all and [None] is returned,
    or one context was bound, with the schema, the definitions of the whole
    document, the request and the variables, one resolution was made under
    it, and the binding was reset last. *)
Theorem execute_Return_restores_context query vars req w r w' :
  exec query vars req w = (Return r, w') →
  context w' = context w ∧
  ((r = None ∧ w' = w) ∨
   ∃ definitions obj sel mid,
     parse query = Return definitions ∧
     is_Some r ∧
     trace w' = trace w ++
       [ContextSet {| schema := cls; root_ast := definitions;
                      request := req; variables := vars |};
        Resolve obj sel] ++ mid ++ [ContextReset] ∧
     (mid = [] ∨ ∃ e, mid = [PrintExc e])).
Proof.
  unfold execute. destruct (parse query) as [definitions|e'] eqn:Hparse;
    [|done].
  intros Hrun.
  destruct (execute_definitions_cases definitions definitions vars req w)
    as [Hnone|(node & Hin & _ & Hop)].
  { rewrite Hnone in Hrun. injection Hrun as <- <-. split; [done|by left]. }
  rewrite Hop in Hrun.
  destruct (root_object construct env cls (operation node)) as [obj|e0]
    eqn:Hobj.
  2:{ by rewrite (execute_operation_no_root _ _ _ _ _ _ _ _ _ _ _ Hobj)
        in Hrun. }
  destruct (resolve {| schema := cls; root_ast := definitions;
                       request := req; variables := vars |}
              obj (selection_set node) []) as [r0 errs] eqn:Hres.
  destruct (resolution_cases r0) as [(e0 & -> & He0)|Hexc].
  { by rewrite (execute_operation_escaped _ _ _ _ _ _ _ _ _ _ _ _ _
                  Hobj Hres He0) in Hrun. }
  rewrite (execute_operation_served _ _ _ _ _ _ _ _ _ _ _ _ _
             Hobj Hres Hexc) in Hrun.
  destruct (json_dumps _) as [s|e1]; [|done].
  injection Hrun as <- <-. split; [done|right].
  exists definitions, obj, (selection_set node), (printed r0).
  split_and!; [done|by eexists|done|].
  destruct r0; simpl; eauto.
Qed.

(** X14: an exception of the resolution that is no [Exception] leaves
    [execute] as it is, nothing is printed or collected, and the context
    stays bound: the reset is not reached. *)
Theorem execute_non_Exception_escapes
    query definitions pre node post vars req w obj e errs :
  definitions = pre ++ Operation node :: post →
  parse query = Return definitions →
  Forall (λ d, qualifies d = false) pre →
  qualifies (Operation node) = true →
  root_object construct env cls (operation node) = Return obj →
  resolve {| schema := cls; root_ast := definitions;
             request := req; variables := vars |}
    obj (selection_set node) [] = (Raise e, errs) →
  isinstance_Exception e = false →
  exec query vars req w =
    (Raise e,
     {| context := Some {| schema := cls; root_ast := definitions;
                           request := req; variables := vars |};
        trace := trace w ++
          [ContextSet {| schema := cls; root_ast := definitions;
                         request := req; variables := vars |};
           Resolve obj (selection_set node)] |}).
Proof.
  intros -> Hparse Hpre Hnode Hobj Hres He.
  rewrite (execute_first _ _ _ _ _ _ _ _ _ _ _ _ _ Hparse Hpre Hnode).
  by apply (execute_operation_escaped _ _ _ _ _ _ _ _ _ _ _ _ errs).
Qed.

(** X17: on a root that passed the root-shape checks and declares the field
    of the operation, when the Object classes can be called without
    arguments, the resolution raises nothing but instances of [Exception]
    and the serializer encodes every envelope, [execute] raises nothing: it
    returns a pair, and the context variable holds what it held before. *)
Theorem execute_validated_returns
    query pre node post vars req w name f :
  validate_root_fields env cls = Return () →
  parse query = Return (pre ++ Operation node :: post) →
  Forall (λ d, qualifies d = false) pre →
  qualifies (Operation node) = true →
  FIELD_MAP_getitem FIELD_MAP (operation node) = Return name →
  (name, f) ∈ cls →
  (∀ class, isinstance_ObjectType (type_of env class) →
            ∃ obj, construct class = Return obj) →
  (∀ c obj sel errs e errs',
     resolve c obj sel errs = (Raise e, errs') → isinstance_Exception e) →
  (∀ return_root, ∃ serialized, json_dumps return_root = Return serialized) →
  ∃ s success w',
    exec query vars req w = (Return (Some (s, success)), w') ∧
    context w' = context w.
Proof.
  intros Hval Hparse Hpre Hnode Hname Hf Hcons Hres Hjson.
  rewrite (execute_first _ _ _ _ _ _ _ _ _ _ _ _ _ Hparse Hpre Hnode).
  destruct (root_object_validated construct env cls (operation node))
    as [(class & Hclass & Hobj)|(name' & Hname' & Hnone & _)]; [done| | |].
  { simpl in Hnode. by apply bool_decide_eq_true in Hnode. }
  - destruct (Hcons class Hclass) as [obj Hnew]. rewrite Hnew in Hobj.
    destruct (resolve {| schema := cls;
                         root_ast := pre ++ Operation node :: post;
                         request := req; variables := vars |}
                obj (selection_set node) []) as [r errs] eqn:Hr.
    rewrite (execute_operation_served _ _ _ _ _ _ _ _ _ _ _ _ _
               Hobj Hr).
    + destruct (Hjson {| errors := match collected r errs with
                                   | [] => None
                                   | _ :: _ => Some (collected r errs)
                                   end;
                         data := produced r obj |}) as [s ->].
      by eauto.
    + intros e ->. by eapply Hres.
  - rewrite Hname in Hname'. injection Hname' as <-. by destruct (Hnone f).
Qed.

End ExecutionMore.

(** ** Printing *)

Lemma append_assoc (a b c : string) : (a +:+ b) +:+ c = a +:+ (b +:+ c).
Proof.
  induction a as [|x a IH]; [done|].
  change (String x ((a +:+ b) +:+ c) = String x (a +:+ (b +:+ c))).
  by f_equal.
Qed.

Lemma append_empty_r (a : string) : a +:+ "" = a.
Proof.
  induction a as [|x a IH]; [done|].
  change (String x (a +:+ "") = String x a). by f_equal.
Qed.

Section PrintingProperties.

Variable str : nat → string.
Variable print_description : string.
Variable print_field : string.
Variable patch_indents : string → nat → string.

Lemma SchemaType_str_loop_acc s registered :
  SchemaType_str_loop str s registered =
  s +:+ SchemaType_str_loop str "" registered.
Proof.
  revert s. induction registered as [|t rest IH]; intros s;
    cbn [SchemaType_str_loop].
  - by rewrite append_empty_r.
  - rewrite IH. rewrite (IH ("" +:+ _)). by rewrite append_assoc.
Qed.

Lemma SchemaType_str_loop_app s l1 l2 :
  SchemaType_str_loop str s (l1 ++ l2) =
  SchemaType_str_loop str (SchemaType_str_loop str s l1) l2.
Proof. revert s. induction l1 as [|t l1 IH]; intros s; simpl; auto. Qed.

(** X16: [__str__] prints the registered types in the order of the registry,
    each followed by an empty line, and the schema block last: at any type of
    the registry the text splits into the printout of the types before it,
    the text of this type, and the printed schema of the types after it. *)
Theorem SchemaType_str_split l1 t l2 :
  SchemaType_str str print_description print_field patch_indents
    (l1 ++ t :: l2) =
  SchemaType_str_loop str "" l1 +:+
  (str t +:+ newline +:+ newline) +:+
  SchemaType_str str print_description print_field patch_indents l2.
Proof.
  unfold SchemaType_str. rewrite SchemaType_str_loop_app. simpl.
  rewrite SchemaType_str_loop_acc. by rewrite !append_assoc.
Qed.

End PrintingProperties.

(** *** The further properties on sample programs *)

Lemma register_types_append_only_sample :
  [1] `prefix_of` [1; 0] ∧ [1] `prefix_of` [1].
Proof.
  apply (register_types_append_only Sample.list_env 2 [0]
           {| validated_type := [1]; registered_type := [1] |}
           {| validated_type := [1; 0]; registered_type := [1] |}).
  reflexivity.
Defined.

Lemma register_types_keeps_NoDup_sample :
  NoDup [1; 0] ∧ NoDup [1] ∧ (∀ t, t ∈ [1] → t ∈ [1; 0]).
Proof.
  apply (register_types_keeps_NoDup Sample.list_env 2 [0]
           {| validated_type := [1]; registered_type := [1] |}
           {| validated_type := [1; 0]; registered_type := [1] |}).
  - reflexivity.
  - apply NoDup_singleton.
  - apply NoDup_singleton.
  - auto.
Defined.

Lemma register_types_only_reachable_sample :
  (1 ∈ [0; 1] → 1 ∈ [] ∨ reachable Sample.list_env [0] 1) ∧
  (1 ∈ [1] →
   1 ∈ [] ∨ (reachable Sample.list_env [0] 1 ∧
             is_named (type_of Sample.list_env 1))).
Proof.
  apply (register_types_only_reachable Sample.list_env 2 [0] empty_registry
           Sample2.registry_after_list 1).
  reflexivity.
Defined.

Lemma registered_type_characterization_sample :
  registered_type Sample.built =
    filter (named Sample.env) (validated_type Sample.built) ∧
  ∀ t, t ∈ registered_type Sample.built ↔
       is_named (type_of Sample.env t) ∧
       reachable Sample.env (field_types (values Sample.root)) t.
Proof.
  apply (registered_type_characterization Sample.no_ObjectType_validate
           Sample.env 5 Sample.root).
  reflexivity.
Defined.

Lemma register_types_idempotent_sample :
  register_types Sample.list_env 1 [0] Sample2.registry_after_list =
  Some (Return Sample2.registry_after_list).
Proof.
  apply (register_types_idempotent Sample.list_env 2 0 [0] empty_registry).
  reflexivity.
Defined.

Lemma register_fields_type_non_field_sample :
  register_fields_type Sample.env 0 [Field 5; NotAField] empty_registry =
  Some (Raise (AttributeError "ftype")).
Proof.
  apply (register_fields_type_non_field Sample.env 0 [Field 5; NotAField]).
  apply elem_of_cons. right. apply elem_of_cons. by left.
Defined.

Lemma SchemaType_new_outcome_sample :
  ((∀ t, reachable Sample2.broken_env (field_types (values Sample.root)) t →
         ¬ ill_fielded Sample2.broken_env t) →
   ∃ st, SchemaType_new Sample.no_ObjectType_validate Sample2.broken_env 12
           Sample.root = Some (Return st)) ∧
  ((∃ t, reachable Sample2.broken_env (field_types (values Sample.root)) t ∧
         ill_fielded Sample2.broken_env t) →
   SchemaType_new Sample.no_ObjectType_validate Sample2.broken_env 12
     Sample.root = Some (Raise (AttributeError "ftype"))).
Proof.
  apply (SchemaType_new_outcome Sample.no_ObjectType_validate
           Sample2.broken_env 12 Sample.root).
  - reflexivity.
  - vm_compute. lia.
Defined.

Lemma root_types_registered_sample :
  ∃ t inner,
    ftype (Field 0) = Return t ∧
    args (type_of Sample.env t) ≫= item0 = Return inner ∧
    isinstance_ObjectType (type_of Sample.env inner) ∧
    inner ∈ registered_type Sample.built.
Proof.
  apply (root_types_registered Sample.no_ObjectType_validate Sample.env 5
           Sample.root Sample.built "query" (Field 0)).
  - reflexivity.
  - apply elem_of_cons. by left.
Defined.

Lemma validate_reports_first_failure_sample :
  ∃ msg,
    validate_root_field Sample.env "mutation" (Field 1) =
      Raise (ValidationError msg) ∧
    validate Sample.no_ObjectType_validate Sample.env Sample2.bad_root =
      Raise (ValidationError msg).
Proof.
  apply (validate_reports_first_failure Sample.no_ObjectType_validate
           Sample.env [("query", Field 0)] "mutation" (Field 1)
           [("extra", Field 0)]).
  - constructor; [|constructor]. split; [by left|].
    exists 0, 1. split_and!; [reflexivity|exact I|reflexivity|exact I].
  - intros (_ & t & inner & Ht & Hopt & _). simpl in Ht.
    injection Ht as <-. exact Hopt.
Defined.

Lemma validated_root_object_sample :
  (∃ class, isinstance_ObjectType (type_of Sample.env class) ∧
            root_object Sample2.construct_strict Sample.env Sample.root QUERY
            = Sample2.construct_strict class) ∨
  (∃ name, FIELD_MAP_getitem FIELD_MAP QUERY = Return name ∧
           (∀ f, (name, f) ∉ Sample.root) ∧
           root_object Sample2.construct_strict Sample.env Sample.root QUERY
           = Raise (KeyError name)).
Proof.
  apply (validated_root_object Sample2.construct_strict Sample.env
           Sample.root QUERY).
  - reflexivity.
  - apply elem_of_cons. by left.
Defined.


Lemma execute_Return_restores_context_sample :
  context
    (execute Sample.parse Sample.resolve Sample.json_dumps Sample.construct
       Sample.env Sample.root "{ boom }" () () Sample.idle).2 =
    context Sample.idle ∧
  ((Some ("{errors: [...], data: {}}", false) = None ∧
    (execute Sample.parse Sample.resolve Sample.json_dumps Sample.construct
       Sample.env Sample.root "{ boom }" () () Sample.idle).2 = Sample.idle)
   ∨
   ∃ definitions obj sel mid,
     Sample.parse "{ boom }" = Return definitions ∧
     is_Some (Some ("{errors: [...], data: {}}", false)) ∧
     trace
       (execute Sample.parse Sample.resolve Sample.json_dumps
          Sample.construct Sample.env Sample.root "{ boom }" () ()
          Sample.idle).2 =
     trace Sample.idle ++
       [ContextSet {| schema := Sample.root; root_ast := definitions;
                      request := (); variables := () |};
        Resolve obj sel] ++ mid ++ [ContextReset] ∧
     (mid = [] ∨ ∃ e, mid = [PrintExc e])).
Proof.
  apply (execute_Return_restores_context Sample.parse Sample.resolve
           Sample.json_dumps Sample.construct Sample.env Sample.root
           "{ boom }" () () Sample.idle).
  reflexivity.
Defined.

Lemma execute_non_Exception_escapes_sample :
  execute Sample.parse Sample2.resolve_interrupted Sample.json_dumps
    Sample.construct Sample.env Sample.root "{ hello }" () () Sample.idle =
  (Raise (BaseException "KeyboardInterrupt"),
   {| context :=
        Some {| schema := Sample.root;
                root_ast := [OtherDefinition;
                             Operation Sample.subscription_ticks;
                             Operation Sample.query_hello;
                             Operation Sample.query_boom];
                request := (); variables := () |};
      trace := trace Sample.idle ++
        [ContextSet {| schema := Sample.root;
                       root_ast := [OtherDefinition;
                                    Operation Sample.subscription_ticks;
                                    Operation Sample.query_hello;
                                    Operation Sample.query_boom];
                       request := (); variables := () |};
         Resolve (Instance 1) (selection_set Sample.query_hello)] |}).
Proof.
  apply (execute_non_Exception_escapes Sample.parse
           Sample2.resolve_interrupted Sample.json_dumps Sample.construct
           Sample.env Sample.root "{ hello }" _
           [OtherDefinition; Operation Sample.subscription_ticks]
           Sample.query_hello [Operation Sample.query_boom] () ()
           Sample.idle (Instance 1) (BaseException "KeyboardInterrupt") []).
  - reflexivity.
  - reflexivity.
  - repeat constructor.
  - reflexivity.
  - reflexivity.
  - reflexivity.
  - reflexivity.
Defined.

Lemma execute_validated_returns_sample :
  ∃ s success w',
    execute Sample.parse Sample.resolve Sample.json_dumps Sample.construct
      Sample.env Sample.root "{ boom }" () () Sample.idle =
      (Return (Some (s, success)), w') ∧
    context w' = context Sample.idle.
Proof.
  apply (execute_validated_returns Sample.parse Sample.resolve
           Sample.json_dumps Sample.construct Sample.env Sample.root
           "{ boom }"
           [] Sample.query_boom [Operation Sample.query_hello] () ()
           Sample.idle "query" (Field 0)).
  - reflexivity.
  - reflexivity.
  - constructor.
  - reflexivity.
  - reflexivity.
  - apply elem_of_cons. by left.
  - intros class _. by eexists.
  - intros c obj sel errs e errs'. unfold Sample.resolve.
    case_decide; intros [= <- _]; exact I.
  - intros [[errs|] [class|v]]; by eexists.
Defined.

(** A class with an attribute that is no field stops the construction of the
    schema that reaches it. *)
Example broken_schema :
  SchemaType_new Sample.no_ObjectType_validate Sample2.broken_env 12
    Sample.root = Some (Raise (AttributeError "ftype")).
Proof. reflexivity. Qed.

(** A root with a mutation only passes validation, and a query sent to the
    schema built from it finds no root field. *)
Example mutation_only_schema :
  validate Sample.no_ObjectType_validate Sample.env Sample2.mutation_root =
    Return () ∧
  execute Sample.parse Sample.resolve Sample.json_dumps Sample.construct
    Sample.env Sample2.mutation_root "{ hello }" () () Sample.idle =
  (Raise (KeyError "query"), Sample.idle).
Proof. split; reflexivity. Qed.

(** The printed schema of two registered types. *)
Example printed_schema :
  SchemaType_str Sample2.str "" "query: Query" (λ s _, "  " +:+ s) [1; 5] =
  "type Query" +:+ newline +:+ newline +:+
  "enum Color" +:+ newline +:+ newline +:+
  "schema {" +:+ newline +:+ "  query: Query" +:+ newline +:+ "}".
Proof. reflexivity. Qed.
